(** * NEODatabase: linking, lookup indexes and the query generator

    A shallow embedding of [database.py] (class [NEODatabase]).

    Python objects are mutable and shared, so near-Earth objects and close
    approaches live in a store and are named by references (object
    identities); the lists handed to the constructor are lists of
    references, in which one object may occur several times.  The three
    dictionaries of the database are finite maps with string keys.  A
    computation threads the store and may raise.

    Each NEO owns its [approaches] list: no two NEOs share one, and none
    is the list handed to the constructor.  The lists handed to the
    constructor are not changed once the database is built. *)

From Stdlib Require Import Ascii String NArith.
From stdpp Require Import base decidable option list strings gmap fin_maps.

Local Open Scope string_scope.
Local Open Scope list_scope.
Local Open Scope nat_scope.
#[local] Set Warnings "-clear-no-such-hyp".

(** ** Strings

    Python [str] values are modelled by [string], a character being a code
    point below 256.  On that range [str.lower] works character by
    character and [str.strip] removes the code points for which
    [str.isspace] holds. *)

Definition code (c : ascii) : N := N_of_ascii c.

Definition isspace (c : ascii) : bool :=
  let n := code c in
  ((9 <=? n) && (n <=? 13) || (28 <=? n) && (n <=? 32)
   || (n =? 133) || (n =? 160))%N.

Definition isupper (c : ascii) : bool :=
  let n := code c in
  ((65 <=? n) && (n <=? 90)
   || (192 <=? n) && (n <=? 222) && negb (n =? 215))%N.

Definition lower_char (c : ascii) : ascii :=
  if isupper c then ascii_of_N (code c + 32) else c.

Fixpoint lower (s : string) : string :=
  match s with
  | EmptyString => EmptyString
  | String c s' => String (lower_char c) (lower s')
  end.

Fixpoint lstrip (s : string) : string :=
  match s with
  | EmptyString => EmptyString
  | String c s' => if isspace c then lstrip s' else s
  end.

Fixpoint rstrip (s : string) : string :=
  match s with
  | EmptyString => EmptyString
  | String c s' =>
      match rstrip s' with
      | EmptyString => if isspace c then EmptyString else String c EmptyString
      | r => String c r
      end
  end.

Definition strip (s : string) : string := rstrip (lstrip s).

(** [all_space s]: every character of [s] is white space. *)
Fixpoint all_space (s : string) : bool :=
  match s with
  | EmptyString => true
  | String c s' => isspace c && all_space s'
  end.

(** ** Objects and the store *)

Definition neo_ref := nat.
Definition ca_ref := nat.

(** The attributes of [models.NearEarthObject] and [models.CloseApproach]
    that [database.py] reads or writes.  The remaining attributes (time,
    distance, velocity, diameter, hazard flag) are only seen by filters,
    which are functions of the reference and of the store. *)
Record NearEarthObject := mkNEO {
  designation : string;
  name : option string;
  approaches : list ca_ref
}.

Record CloseApproach := mkCA {
  _designation : string;
  neo : option neo_ref
}.

Record store := mkStore {
  neo_obj : neo_ref → NearEarthObject;
  ca_obj : ca_ref → CloseApproach
}.

(** [approach.neo = n] *)
Definition set_neo (a : ca_ref) (n : neo_ref) (st : store) : store :=
  mkStore (neo_obj st)
    (λ r, if decide (r = a)
          then mkCA (_designation (ca_obj st a)) (Some n)
          else ca_obj st r).

(** [n.approaches.append(a)] *)
Definition append_approach (n : neo_ref) (a : ca_ref) (st : store) : store :=
  mkStore
    (λ r, if decide (r = n)
          then mkNEO (designation (neo_obj st n)) (name (neo_obj st n))
                     (approaches (neo_obj st n) ++ [a])
          else neo_obj st r)
    (ca_obj st).

(** ** Computations that may raise *)

Inductive exn := AttributeError | IndexError.

Inductive result (A : Type) :=
  | Ok (a : A)
  | Raise (e : exn).
Arguments Ok {A} a.
Arguments Raise {A} e.

Definition M (A : Type) : Type := store → result (A * store).

Definition ret {A} (a : A) : M A := λ st, Ok (a, st).
Definition raise {A} (e : exn) : M A := λ _, Raise e.
Definition bind {A B} (c : M A) (k : A → M B) : M B :=
  λ st, match c st with
        | Ok (a, st') => k a st'
        | Raise e => Raise e
        end.
Definition get_store : M store := λ st, Ok (st, st).
Definition modify (f : store → store) : M unit := λ st, Ok (tt, f st).

Notation "'let*' x := c 'in' k" := (bind c (λ x, k))
  (at level 10, x pattern, c at level 100, k at level 200).
Notation "c ;;; k" := (bind c (λ _, k))
  (at level 100, k at level 200, right associativity).

(** [for x in l: body x] *)
Fixpoint for_each {A} (body : A → M unit) (l : list A) : M unit :=
  match l with
  | [] => ret tt
  | x :: l' => body x ;;; for_each body l'
  end.

(** ** Dictionaries built by a loop of assignments

    [dict_of key val l] is the dictionary after [d[key x] = val x] was run
    for each [x] of [l] in order, the elements without a key being left
    out; a later assignment to a key replaces the earlier one. *)
Definition dict_of {A V} (key : A → option string) (val : A → V)
    (l : list A) : gmap string V :=
  foldl (λ d x, match key x with
                | Some k => <[k := val x]> d
                | None => d
                end) ∅ l.

(** [enumerate(l)], counting from [i] *)
Fixpoint enumerate_from {A} (i : nat) (l : list A) : list (nat * A) :=
  match l with
  | [] => []
  | x :: l' => (i, x) :: enumerate_from (S i) l'
  end.
Definition enumerate {A} (l : list A) : list (nat * A) := enumerate_from 0 l.

(** ** The database *)

Record NEODatabase := mkDB {
  _neos : list neo_ref;
  _approaches : list ca_ref;
  _designation_to_index : gmap string nat;
  _designation_to_neo : gmap string neo_ref;
  _name_to_neo : gmap string neo_ref
}.

(** Lines 50-53: the table from designation to position in [neos]. *)
Definition designation_to_index (st : store) (neos : list neo_ref)
    : gmap string nat :=
  dict_of (λ p, Some (designation (neo_obj st p.2))) fst (enumerate neos).

(** Lines 56-61: the body of the linking loop. *)
Definition link_approach (neos : list neo_ref) (d2i : gmap string nat)
    (approach : ca_ref) : M unit :=
  let* st := get_store in
  match neo (ca_obj st approach) with
  | Some _ => ret tt
  | None =>
      match d2i !! _designation (ca_obj st approach) with
      | None => ret tt
      | Some i =>
          match neos !! i with
          | None => raise IndexError
          | Some n =>
              modify (set_neo approach n) ;;;
              let* st1 := get_store in
              match neo (ca_obj st1 approach) with
              | None => raise AttributeError
              | Some m => modify (append_approach m approach)
              end
          end
      end
  end.

(** Lines 64-69: the two lookup tables, keyed by the lowercased field. *)
Definition designation_to_neo (st : store) (neos : list neo_ref)
    : gmap string neo_ref :=
  dict_of (λ n, Some (lower (designation (neo_obj st n)))) id neos.

Definition name_to_neo (st : store) (neos : list neo_ref)
    : gmap string neo_ref :=
  dict_of (λ n, lower <$> name (neo_obj st n)) id neos.

(** [NEODatabase.__init__(neos, approaches)] *)
Definition __init__ (neos : list neo_ref) (approaches : list ca_ref)
    : M NEODatabase :=
  let* st0 := get_store in
  let d2i := designation_to_index st0 neos in
  for_each (link_approach neos d2i) approaches ;;;
  let* st := get_store in
  ret (mkDB neos approaches d2i
         (designation_to_neo st neos) (name_to_neo st neos)).

(** [str] arguments: at run time a caller may pass [None]. *)
Definition lookup_key (arg : option string) : result string :=
  match arg with
  | None => Raise AttributeError
  | Some s => Ok (lower (strip s))
  end.

(** [NEODatabase.get_neo_by_designation] (line 84) *)
Definition get_neo_by_designation (db : NEODatabase)
    (designation : option string) : result (option neo_ref) :=
  match lookup_key designation with
  | Ok k => Ok (_designation_to_neo db !! k)
  | Raise e => Raise e
  end.

(** [NEODatabase.get_neo_by_name] (line 100) *)
Definition get_neo_by_name (db : NEODatabase)
    (name : option string) : result (option neo_ref) :=
  match lookup_key name with
  | Ok k => Ok (_name_to_neo db !! k)
  | Raise e => Raise e
  end.

(** ** The query generator

    A filter is a callable on a close approach; it may read and write
    the store and may raise. *)
Definition AttributeFilter : Type := ca_ref → M bool.

(** Lines 122-128: the loop over the filters, [result] being the local
    variable of that name. *)
Fixpoint filter_loop (filters : list AttributeFilter) (approach : ca_ref)
    (result : bool) : M bool :=
  match filters with
  | [] => ret result
  | filter :: filters' =>
      let* b := filter approach in
      if b then filter_loop filters' approach true else ret false
  end.

(** Where a generator made by [query] is suspended.  The iterator over
    [self._approaches] is kept as the items it has not produced yet. *)
Inductive gen_state :=
  | AtLoop (rest : list ca_ref)
      (** just created, or suspended at line 133: resumes at line 116 *)
  | AtFirstYield (approach : ca_ref) (rest : list ca_ref)
      (** suspended at line 118: resumes at line 120 *)
  | Finished.

(** Lines 120-133 for [approach]; [continue] is the rest of the loop. *)
Definition check_and_yield (filters : list AttributeFilter)
    (approach : ca_ref) (rest : list ca_ref)
    (continue : M (option ca_ref * gen_state))
    : M (option ca_ref * gen_state) :=
  let* result := filter_loop filters approach false in
  if result then ret (Some approach, AtLoop rest) else continue.

(** Lines 116-133 run from the loop head up to the next [yield]. *)
Fixpoint run_loop (filters : list AttributeFilter) (rest : list ca_ref)
    : M (option ca_ref * gen_state) :=
  match rest with
  | [] => ret (None, Finished)
  | approach :: rest' =>
      if decide (length filters = 0)
      then ret (Some approach, AtFirstYield approach rest')
      else check_and_yield filters approach rest' (run_loop filters rest')
  end.

(** [next(gen)]: the value yielded, or [None] for [StopIteration]. *)
Definition next (filters : list AttributeFilter) (g : gen_state)
    : M (option ca_ref * gen_state) :=
  match g with
  | AtLoop rest => run_loop filters rest
  | AtFirstYield approach rest =>
      check_and_yield filters approach rest (run_loop filters rest)
  | Finished => ret (None, Finished)
  end.

(** [NEODatabase.query(filters)]: calling it only creates the generator. *)
Definition query (db : NEODatabase) (filters : list AttributeFilter)
    : gen_state :=
  AtLoop (_approaches db).

(** At most [k] calls of [next], stopping at [StopIteration]: what was
    yielded and the generator left behind. *)
Fixpoint consume (k : nat) (filters : list AttributeFilter) (g : gen_state)
    : M (list ca_ref * gen_state) :=
  match k with
  | 0 => ret ([], g)
  | S k' =>
      let* r := next filters g in
      match r.1 with
      | None => ret ([], r.2)
      | Some a =>
          let* r' := consume k' filters r.2 in
          ret (a :: r'.1, r'.2)
      end
  end.

(** ** Writing results ([write.py])

    The two [serialize] methods belong to [models.py]; they are taken as
    they come, as functions from an object in the store to a dictionary.
    The file is modelled by what is handed to it: for CSV the rows given
    to the underlying writer, for JSON the value given to [json.dump]. *)

(** What the writers may raise: [AttributeError] for [None.serialize()],
    [ValueError] when [csv.DictWriter] is given a key that is no field
    name. *)
Inductive write_exn := WAttributeError | WValueError.

(** A cell of a CSV row: a string of the writer's own (a field name of the
    header, the empty string for a missing key) or a serialized value. *)
Inductive cell (V : Type) :=
  | Text (s : string)
  | Val (v : V).
Arguments Text {V} s.
Arguments Val {V} v.

(** A value of the JSON output: a serialized value or a nested record. *)
Inductive jval (V : Type) :=
  | JVal (v : V)
  | JDict (d : gmap string V).
Arguments JVal {V} v.
Arguments JDict {V} d.

(** Lines 30-33 *)
Definition fieldnames : list string :=
  ["datetime_utc"; "distance_au"; "velocity_km_s";
   "designation"; "name"; "diameter_km"; "potentially_hazardous"].

(** [d1 | d2]: the entries of both, those of [d2] winning. *)
Definition dict_or {A} (d1 d2 : gmap string A) : gmap string A := d2 ∪ d1.

(** [csv.DictWriter._dict_to_list], with the default [extrasaction] and
    [restval]: a key outside the field names raises, a missing field is
    the empty string. *)
Definition dict_to_list {V} (rowdict : gmap string (cell V))
    : write_exn + list (cell V) :=
  if decide (dom rowdict ⊆ list_to_set fieldnames)
  then inr ((λ k, default (Text "") (rowdict !! k)) <$> fieldnames)
  else inl WValueError.

(** [csv.DictWriter.writeheader]: the row of the field names themselves. *)
Definition header_dict {V} : gmap string (cell V) :=
  list_to_map (zip fieldnames (Text <$> fieldnames)).

(** The cell of field [k] in the row of a linked approach. *)
Definition csv_cell {V} (from_approach from_neo : gmap string V) (k : string)
    : cell V :=
  match from_neo !! k with
  | Some v => Val v
  | None =>
      match from_approach !! k with
      | Some v => Val v
      | None => Text ""
      end
  end.

Section writers.
Context {V : Type}.
Variable serialize_approach : store → ca_ref → gmap string V.
Variable serialize_neo : store → neo_ref → gmap string V.

(** Line 39: [result.serialize() | result.neo.serialize()] *)
Definition csv_rowdict (st : store) (result : ca_ref)
    : write_exn + gmap string (cell V) :=
  match neo (ca_obj st result) with
  | None => inl WAttributeError
  | Some n =>
      inr (Val <$> dict_or (serialize_approach st result) (serialize_neo st n))
  end.

(** Lines 38-39: the loop, [file] being the rows written so far.  The
    result is the rows in the file when the loop ends and what it raised. *)
Fixpoint write_rows (st : store) (results : list ca_ref)
    (file : list (list (cell V))) : list (list (cell V)) * option write_exn :=
  match results with
  | [] => (file, None)
  | result :: results' =>
      match csv_rowdict st result with
      | inl e => (file, Some e)
      | inr rowdict =>
          match dict_to_list rowdict with
          | inl e => (file, Some e)
          | inr row => write_rows st results' (file ++ [row])
          end
      end
  end.

(** [write_to_csv(results, filename)] *)
Definition write_to_csv (st : store) (results : list ca_ref)
    : list (list (cell V)) * option write_exn :=
  match dict_to_list header_dict with
  | inl e => ([], Some e)
  | inr header => write_rows st results [header]
  end.

(** [nest_neo_object(neo)] (lines 60-63) *)
Definition nest_neo_object (st : store) (neo : option neo_ref)
    : write_exn + gmap string (gmap string V) :=
  match neo with
  | None => inl WAttributeError
  | Some n => inr {["neo" := serialize_neo st n]}
  end.

(** Lines 54-55: one element of [dict_list] *)
Definition json_record (st : store) (result : ca_ref)
    : write_exn + gmap string (jval V) :=
  match nest_neo_object st (neo (ca_obj st result)) with
  | inl e => inl e
  | inr nested =>
      inr (dict_or (JVal <$> serialize_approach st result) (JDict <$> nested))
  end.

(** [write_to_json(results, filename)]: the list given to [json.dump], which
    is reached only if the whole list could be built. *)
Fixpoint write_to_json (st : store) (results : list ca_ref)
    : write_exn + list (gmap string (jval V)) :=
  match results with
  | [] => inr []
  | result :: results' =>
      match json_record st result with
      | inl e => inl e
      | inr record =>
          match write_to_json st results' with
          | inl e => inl e
          | inr records => inr (record :: records)
          end
      end
  end.

(** [writable st r]: approach [r] is linked and neither its serialization
    nor that of its NEO has a key that is no field name. *)
Definition writable (st : store) (r : ca_ref) : Prop :=
  ∃ n, neo (ca_obj st r) = Some n ∧
       ∀ k, is_Some (serialize_approach st r !! k) ∨
            is_Some (serialize_neo st n !! k) → k ∈ fieldnames.

(** The row of a linked approach, one cell for each field name. *)
Definition csv_row (st : store) (r : ca_ref) : list (cell V) :=
  match neo (ca_obj st r) with
  | Some n =>
      csv_cell (serialize_approach st r) (serialize_neo st n) <$> fieldnames
  | None => []
  end.
End writers.


(** ** Reference descriptions used by the proofs *)

(** The NEO that the linking loop picks for approach [a]. *)
Definition target (neos : list neo_ref) (d2i : gmap string nat)
    (st : store) (a : ca_ref) : option neo_ref :=
  match d2i !! _designation (ca_obj st a) with
  | Some i => neos !! i
  | None => None
  end.

(** The store after one round of the linking loop. *)
Definition link_store (neos : list neo_ref) (d2i : gmap string nat)
    (st : store) (a : ca_ref) : store :=
  match neo (ca_obj st a) with
  | Some _ => st
  | None =>
      match target neos d2i st a with
      | Some n => append_approach n a (set_neo a n st)
      | None => st
      end
  end.

(** [l] without the repeated occurrences of an element after its first. *)
Fixpoint first_occurrences (l : list nat) : list nat :=
  match l with
  | [] => []
  | x :: l' => x :: filter (λ y, y ≠ x) (first_occurrences l')
  end.

(** The key under which a NEO enters the designation-to-index table. *)
Definition designation_key (st : store) (n : neo_ref) : option string :=
  Some (designation (neo_obj st n)).

(** The keys under which a NEO enters the two lookup tables. *)
Definition lower_designation_key (st : store) (n : neo_ref) : option string :=
  Some (lower (designation (neo_obj st n))).

Definition lower_name_key (st : store) (n : neo_ref) : option string :=
  lower <$> name (neo_obj st n).

(** In store [st], approach [a] is unlinked and the loop picks [m] for it. *)
Definition links_to (neos : list neo_ref) (d2i : gmap string nat)
    (st : store) (m : neo_ref) (a : ca_ref) : Prop :=
  neo (ca_obj st a) = None ∧ target neos d2i st a = Some m.

#[global] Instance links_to_dec neos d2i st m a :
  Decision (links_to neos d2i st m a).
Proof. unfold links_to. apply _. Defined.

(** [is_last key k l i x]: [x] is at position [i] of [l], has key [k], and
    no later element of [l] has key [k]. *)
Definition is_last {A} (key : A → option string) (k : string)
    (l : list A) (i : nat) (x : A) : Prop :=
  l !! i = Some x ∧ key x = Some k ∧
  ∀ (j : nat) y, l !! j = Some y → key y = Some k → (j ≤ i)%nat.

(** A filter that, in store [st], only computes the boolean [p a]. *)
Definition pure_at (st : store) (f : AttributeFilter) (p : ca_ref → bool)
    : Prop :=
  ∀ a, f a st = Ok (p a, st).

(** All the predicates hold of [a] (vacuously so when there is none). *)
Definition all_hold (preds : list (ca_ref → bool)) (a : ca_ref) : bool :=
  forallb (λ p, p a) preds.

(** The stored approaches a suspended generator has not looked at yet. *)
Definition remaining (g : gen_state) : list ca_ref :=
  match g with
  | AtLoop rest | AtFirstYield _ rest => rest
  | Finished => []
  end.

(** A generator is suspended at line 118 only if it has no filter. *)
Definition reachable (filters : list AttributeFilter) (g : gen_state) : Prop :=
  match g with
  | AtFirstYield _ _ => length filters = 0
  | _ => True
  end.

(** ** Example data *)

(** The scenario of the specification: Eros (designation 433), an unnamed
    NEO (2000 FJ10), two approaches of 433 and one of the unknown 999. *)
Definition eros_store : store :=
  mkStore
    (λ r, match r with
          | 0 => mkNEO "433" (Some "Eros") []
          | _ => mkNEO "2000 FJ10" None []
          end)
    (λ r, match r with
          | 0 | 1 => mkCA "433" None
          | _ => mkCA "999" None
          end).

(** NEOs 0 and 1 have one designation; the designations and the names of
    all three coincide after lowercasing. *)
Definition twin_store : store :=
  mkStore
    (λ r, match r with
          | 0 => mkNEO "2000 FJ10" (Some "Eros") []
          | 1 => mkNEO "2000 FJ10" (Some "EROS") []
          | _ => mkNEO "2000 fj10" (Some "eros") []
          end)
    (λ r, mkCA "2000 FJ10" None).

(** Approach 0 already refers to NEO 1; approach 1 is unlinked. *)
Definition linked_store : store :=
  mkStore
    (λ r, mkNEO "433" None [])
    (λ r, match r with
          | 0 => mkCA "433" (Some 1)
          | _ => mkCA "433" None
          end).

(** A NEO whose designation and name start with a blank. *)
Definition untrimmed_store : store :=
  mkStore (λ r, mkNEO " 433" (Some " Eros") []) (λ r, mkCA "433" None).

(** A NEO whose name is the empty string. *)
Definition blank_name_store : store :=
  mkStore (λ r, mkNEO "433" (Some "") []) (λ r, mkCA "433" None).

(** Two filters that only compute: an even reference, a reference below 4. *)
Definition even_filter : AttributeFilter := λ a, ret (Nat.even a).
Definition small_filter : AttributeFilter := λ a, ret (a <? 4).

(** Serializations for the examples: the approach gives its designation
    as [designation] and [name], the NEO its name, if it has one. *)
Definition example_serialize_approach (st : store) (a : ca_ref)
    : gmap string string :=
  {[ "designation" := _designation (ca_obj st a);
     "name" := _designation (ca_obj st a) ]}.

Definition example_serialize_neo (st : store) (n : neo_ref)
    : gmap string string :=
  match name (neo_obj st n) with
  | Some nm => {[ "name" := nm ]}
  | None => ∅
  end.

(** A serialization with a key that is no field name. *)
Definition odd_serialize_neo (st : store) (n : neo_ref) : gmap string string :=
  {[ "fullname" := designation (neo_obj st n) ]}.

(** The scenario of the specification after the constructor has run. *)
Definition eros_linked_store : store :=
  mkStore
    (λ r, match r with
          | 0 => mkNEO "433" (Some "Eros") [0; 1]
          | _ => mkNEO "2000 FJ10" None []
          end)
    (λ r, match r with
          | 0 | 1 => mkCA "433" (Some 0)
          | _ => mkCA "999" None
          end).

(** A filter that raises, and one that unlinks the approach it is given. *)
Definition raising_filter : AttributeFilter := λ a, raise AttributeError.
Definition unlinking_filter : AttributeFilter :=
  λ a st,
    Ok (true, mkStore (neo_obj st)
                (λ r, if decide (r = a)
                      then mkCA (_designation (ca_obj st a)) None
                      else ca_obj st r)).

(** * Proofs *)

(** ** Strings: stripping and lowercasing *)

Lemma isspace_lower_char c : isspace (lower_char c) = isspace c.
Proof. by destruct c as [[] [] [] [] [] [] [] []]. Qed.

Lemma lower_length s : String.length (lower s) = String.length s.
Proof. induction s as [|c s IH]; simpl; [done|by rewrite IH]. Qed.

Lemma lower_lstrip s : lower (lstrip s) = lstrip (lower s).
Proof.
  induction s as [|c s IH]; simpl; [done|].
  rewrite isspace_lower_char. by destruct (isspace c).
Qed.

Lemma lower_rstrip s : lower (rstrip s) = rstrip (lower s).
Proof.
  induction s as [|c s IH]; simpl; [done|].
  rewrite <-IH, isspace_lower_char.
  destruct (rstrip s); simpl; [by destruct (isspace c)|done].
Qed.

Lemma lower_strip s : lower (strip s) = strip (lower s).
Proof. unfold strip. by rewrite lower_rstrip, lower_lstrip. Qed.

Lemma lstrip_length s : String.length (lstrip s) ≤ String.length s.
Proof.
  induction s as [|c s IH]; simpl; [done|].
  destruct (isspace c); simpl; lia.
Qed.

Lemma rstrip_length s : String.length (rstrip s) ≤ String.length s.
Proof.
  induction s as [|c s IH]; simpl; [done|].
  destruct (rstrip s); simpl in *; [destruct (isspace c); simpl; lia|lia].
Qed.

Lemma lstrip_fixed s : String.length (lstrip s) = String.length s → lstrip s = s.
Proof.
  destruct s as [|c s]; simpl; [done|].
  destruct (isspace c); [|done].
  pose proof (lstrip_length s). lia.
Qed.

Lemma rstrip_fixed s : String.length (rstrip s) = String.length s → rstrip s = s.
Proof.
  induction s as [|c s IH]; simpl; [done|].
  pose proof (rstrip_length s) as Hle.
  destruct (rstrip s) as [|c' r] eqn:Hr; simpl in *.
  - destruct (isspace c); simpl; intros Hlen; [exfalso; lia|].
    destruct s; [done|simpl in Hlen; lia].
  - intros Hlen. rewrite IH; [done|lia].
Qed.

Lemma strip_fixed s :
  String.length (strip s) = String.length s → lstrip s = s ∧ rstrip s = s.
Proof.
  unfold strip. intros Hlen.
  pose proof (rstrip_length (lstrip s)). pose proof (lstrip_length s).
  assert (lstrip s = s) as Hl by (apply lstrip_fixed; lia).
  rewrite Hl in Hlen. split; [done|by apply rstrip_fixed].
Qed.

Lemma lstrip_blanks w s : all_space w = true → lstrip (w ++ s)%string = lstrip s.
Proof.
  induction w as [|c w IH]; simpl; [done|].
  intros [-> Hw]%andb_true_iff. by apply IH.
Qed.

Lemma rstrip_all_space w : all_space w = true → rstrip w = "".
Proof.
  induction w as [|c w IH]; simpl; [done|].
  intros [-> Hw]%andb_true_iff. by rewrite IH.
Qed.

Lemma rstrip_blanks s w : all_space w = true → rstrip (s ++ w)%string = rstrip s.
Proof.
  intros Hw. induction s as [|c s IH]; simpl; [by apply rstrip_all_space|].
  by rewrite IH.
Qed.

(** Blanks around a string that has none at its ends are stripped away. *)
Lemma strip_blanks_around w1 t w2 :
  all_space w1 = true → all_space w2 = true → strip t = t →
  strip (w1 ++ t ++ w2)%string = t.
Proof.
  intros Hw1 Hw2 Ht.
  destruct (strip_fixed t) as [Hl Hr]; [by rewrite Ht|].
  unfold strip. rewrite lstrip_blanks by done.
  destruct t as [|c t]; simpl in *.
  - clear Hl Hr Ht. induction w2 as [|c w IH]; simpl in *; [done|].
    apply andb_true_iff in Hw2 as [-> Hw]. by apply IH.
  - destruct (isspace c) eqn:Hc.
    + pose proof (lstrip_length t). apply (f_equal String.length) in Hl.
      simpl in Hl. lia.
    + simpl. rewrite rstrip_blanks by done. by rewrite Hc.
Qed.

(** An argument made of blanks, a string that is the field up to letter
    case, and blanks, is the field up to letter case and surrounding white
    space. *)
Lemma blanks_and_case_normalise w1 t w2 d :
  all_space w1 = true → all_space w2 = true →
  lower t = lower d → strip d = d →
  lower (strip (w1 ++ t ++ w2)%string) = lower (strip d).
Proof.
  intros Hw1 Hw2 Htd Hd.
  assert (strip t = t) as Ht.
  { assert (lower (strip t) = lower t) as Hlow
      by (by rewrite lower_strip, Htd, <-lower_strip, Hd).
    apply (f_equal String.length) in Hlow. rewrite !lower_length in Hlow.
    destruct (strip_fixed t Hlow) as [Hl Hr]. unfold strip. by rewrite Hl. }
  by rewrite strip_blanks_around, Hd.
Qed.

(** ** Dictionaries: the last assignment to a key wins *)
Section dict_of.
Context {A V : Type} (key : A → option string) (val : A → V).

Lemma dict_of_snoc (l : list A) (x : A) :
  dict_of key val (l ++ [x]) =
  match key x with
  | Some k => <[k := val x]> (dict_of key val l)
  | None => dict_of key val l
  end.
Proof. unfold dict_of. by rewrite foldl_app. Qed.

Lemma is_last_snoc_ne (k : string) (l : list A) (x : A) i y :
  key x ≠ Some k →
  is_last key k (l ++ [x]) i y ↔ is_last key k l i y.
Proof.
  intros Hx. unfold is_last. split.
  - intros (Hi & Hk & Hlast).
    assert (i < length l)%nat as Hlt.
    { apply lookup_lt_Some in Hi as Hi'. rewrite length_app in Hi'. simpl in Hi'.
      destruct (decide (i = length l)) as [->|]; [|lia].
      rewrite list_lookup_middle in Hi by done. congruence. }
    rewrite lookup_app_l in Hi by done. split_and!; [done..|].
    intros j z Hj Hz. apply (Hlast j z); [|done].
    rewrite lookup_app_l; [done|]. by eapply lookup_lt_Some.
  - intros (Hi & Hk & Hlast). split_and!; [|done|].
    + rewrite lookup_app_l; [done|]. by eapply lookup_lt_Some.
    + intros j z Hj Hz. destruct (decide (j < length l)%nat) as [Hlt|Hge].
      * rewrite lookup_app_l in Hj by done. by eapply Hlast.
      * apply lookup_lt_Some in Hj as Hj'. rewrite length_app in Hj'. simpl in Hj'.
        assert (j = length l) as -> by lia.
        rewrite list_lookup_middle in Hj by done. congruence.
Qed.

Lemma is_last_snoc_eq (k : string) (l : list A) (x : A) i y :
  key x = Some k →
  is_last key k (l ++ [x]) i y ↔ i = length l ∧ y = x.
Proof.
  intros Hx. unfold is_last. split.
  - intros (Hi & Hk & Hlast).
    assert (length l ≤ i)%nat.
    { apply (Hlast (length l) x); [|done]. by rewrite list_lookup_middle. }
    apply lookup_lt_Some in Hi as Hi'. rewrite length_app in Hi'. simpl in Hi'.
    assert (i = length l) as -> by lia.
    rewrite list_lookup_middle in Hi by done. split; congruence.
  - intros [-> ->]. split_and!; [by rewrite list_lookup_middle|done|].
    intros j z Hj _. apply lookup_lt_Some in Hj. rewrite length_app in Hj.
    simpl in Hj. lia.
Qed.

Lemma dict_of_lookup (l : list A) (k : string) (v : V) :
  dict_of key val l !! k = Some v ↔
  ∃ i x, is_last key k l i x ∧ val x = v.
Proof.
  induction l as [|x l IH] using rev_ind.
  - unfold dict_of; simpl. rewrite lookup_empty. split; [done|].
    intros (i & x & (Hi & _) & _). by rewrite lookup_nil in Hi.
  - rewrite dict_of_snoc. destruct (key x) as [k'|] eqn:Hkx.
    + destruct (decide (k' = k)) as [->|Hne].
      * rewrite lookup_insert_eq. split.
        -- intros [= <-]. exists (length l), x. split; [|done].
           by apply is_last_snoc_eq.
        -- intros (i & y & Hl & <-). apply is_last_snoc_eq in Hl as [_ ->]; done.
      * rewrite lookup_insert_ne by done. rewrite IH.
        assert (key x ≠ Some k) as Hx by congruence.
        split; intros (i & y & Hl & Hv); exists i, y; split; try done;
          by apply (is_last_snoc_ne k l x i y Hx).
    + rewrite IH. assert (key x ≠ Some k) as Hx by congruence.
      split; intros (i & y & Hl & Hv); exists i, y; split; try done;
        by apply (is_last_snoc_ne k l x i y Hx).
Qed.

Lemma dict_of_lookup_None (l : list A) (k : string) :
  dict_of key val l !! k = None ↔ ∀ x, x ∈ l → key x ≠ Some k.
Proof.
  induction l as [|x l IH] using rev_ind.
  - unfold dict_of; simpl. rewrite lookup_empty. split; [|done].
    intros _ x Hx. by apply not_elem_of_nil in Hx.
  - rewrite dict_of_snoc. setoid_rewrite elem_of_app.
    setoid_rewrite list_elem_of_singleton.
    destruct (key x) as [k'|] eqn:Hkx.
    + destruct (decide (k' = k)) as [->|Hne].
      * rewrite lookup_insert_eq. split; [done|].
        intros H. exfalso. apply (H x); [by right|done].
      * rewrite lookup_insert_ne by done. rewrite IH. split.
        -- intros H y [Hy| ->]; [by apply H|congruence].
        -- intros H y Hy. apply H. by left.
    + rewrite IH. split.
      * intros H y [Hy| ->]; [by apply H|congruence].
      * intros H y Hy. apply H. by left.
Qed.
End dict_of.

(** ** The table from designation to position *)

Lemma enumerate_from_lookup {A} (k : nat) (l : list A) (i : nat) :
  enumerate_from k l !! i = (λ x, ((k + i)%nat, x)) <$> l !! i.
Proof.
  revert k i. induction l as [|x l IH]; intros k i; [done|].
  destruct i as [|i]; simpl.
  - by rewrite Nat.add_0_r.
  - rewrite IH. by replace (S k + i)%nat with (k + S i)%nat by lia.
Qed.

Lemma enumerate_lookup {A} (l : list A) (i : nat) (p : nat * A) :
  enumerate l !! i = Some p ↔ p.1 = i ∧ l !! i = Some p.2.
Proof.
  unfold enumerate. rewrite enumerate_from_lookup. destruct p as [j x]. simpl.
  destruct (l !! i) as [y|]; simpl; [|by split; [|intros []]].
  split; [by intros [= <- <-]|by intros [<- [= <-]]].
Qed.

Lemma designation_to_index_lookup st neos d i :
  designation_to_index st neos !! d = Some i ↔
  ∃ n, is_last (designation_key st) d neos i n.
Proof.
  unfold designation_to_index. rewrite dict_of_lookup. split.
  - intros (j & [i' n] & (Hj & Hk & Hlast) & Hv). simpl in *. subst i'.
    apply enumerate_lookup in Hj as [<- Hn]. simpl in *.
    exists n. split_and!; [done..|].
    intros j' n' Hj' Hk'.
    apply (Hlast j' (j', n')); [|done]. by apply enumerate_lookup.
  - intros (n & Hi & Hk & Hlast). exists i, (i, n). split; [|done].
    split_and!; [by apply enumerate_lookup|done|].
    intros j [j' n'] Hj Hk'. apply enumerate_lookup in Hj as [Hjj Hn'].
    simpl in *. by eapply Hlast.
Qed.

Lemma designation_to_index_None st neos d :
  designation_to_index st neos !! d = None ↔
  ∀ n, n ∈ neos → designation (neo_obj st n) ≠ d.
Proof.
  unfold designation_to_index. rewrite dict_of_lookup_None. split.
  - intros H n Hn Hd. apply list_elem_of_lookup in Hn as [i Hi].
    apply (H (i, n)); [|simpl; congruence].
    apply list_elem_of_lookup. exists i. by apply enumerate_lookup.
  - intros H [i n] Hin [= Hd]. apply list_elem_of_lookup in Hin as [j Hj].
    apply enumerate_lookup in Hj as [_ Hn]. simpl in *.
    apply (H n); [|done]. apply list_elem_of_lookup. eauto.
Qed.

Lemma designation_to_index_in_range st neos d i :
  designation_to_index st neos !! d = Some i → is_Some (neos !! i).
Proof.
  intros H. apply designation_to_index_lookup in H as (n & Hn & _). eauto.
Qed.

(** ** The linking loop computes [link_store] and never raises *)

Lemma link_approach_run neos d2i a st :
  (∀ d i, d2i !! d = Some i → is_Some (neos !! i)) →
  link_approach neos d2i a st = Ok (tt, link_store neos d2i st a).
Proof.
  intros Hwf. unfold link_approach, link_store, target, bind, get_store.
  destruct (neo (ca_obj st a)) as [m|] eqn:Hneo; [done|].
  destruct (d2i !! _designation (ca_obj st a)) as [i|] eqn:Hd; [|done].
  destruct (Hwf _ _ Hd) as [n Hn]. rewrite Hn.
  unfold modify, bind, set_neo; simpl. rewrite decide_True by done. done.
Qed.

Lemma for_each_link_run neos d2i l st :
  (∀ d i, d2i !! d = Some i → is_Some (neos !! i)) →
  for_each (link_approach neos d2i) l st =
  Ok (tt, foldl (link_store neos d2i) st l).
Proof.
  intros Hwf. revert st. induction l as [|a l IH]; intros st; [done|].
  simpl. unfold bind. rewrite link_approach_run by done. apply IH.
Qed.

Lemma init_run neos approaches st :
  let d2i := designation_to_index st neos in
  let st' := foldl (link_store neos d2i) st approaches in
  __init__ neos approaches st =
  Ok (mkDB neos approaches d2i
        (designation_to_neo st' neos) (name_to_neo st' neos), st').
Proof.
  intros d2i st'. unfold __init__, bind, get_store.
  rewrite for_each_link_run; [done|].
  intros d i. apply designation_to_index_in_range.
Qed.

(** ** One round of the linking loop *)
Section link_store.
Context (neos : list neo_ref) (d2i : gmap string nat).

Lemma link_store_designation st x n :
  designation (neo_obj (link_store neos d2i st x) n) = designation (neo_obj st n).
Proof.
  unfold link_store. destruct (neo (ca_obj st x)); [done|].
  destruct (target neos d2i st x) as [m|]; [|done]. simpl.
  case_decide; by subst.
Qed.

Lemma link_store_name st x n :
  name (neo_obj (link_store neos d2i st x) n) = name (neo_obj st n).
Proof.
  unfold link_store. destruct (neo (ca_obj st x)); [done|].
  destruct (target neos d2i st x) as [m|]; [|done]. simpl.
  case_decide; by subst.
Qed.

Lemma link_store__designation st x a :
  _designation (ca_obj (link_store neos d2i st x) a) = _designation (ca_obj st a).
Proof.
  unfold link_store. destruct (neo (ca_obj st x)); [done|].
  destruct (target neos d2i st x) as [m|]; [|done]. simpl.
  case_decide; by subst.
Qed.

Lemma link_store_target st x a :
  target neos d2i (link_store neos d2i st x) a = target neos d2i st a.
Proof. unfold target. by rewrite link_store__designation. Qed.

Lemma link_store_neo st x a :
  neo (ca_obj (link_store neos d2i st x) a) =
  if decide (a = x)
  then match neo (ca_obj st x) with
       | Some m => Some m
       | None => target neos d2i st x
       end
  else neo (ca_obj st a).
Proof.
  unfold link_store. destruct (neo (ca_obj st x)) as [m|] eqn:Hx.
  { case_decide; by subst. }
  destruct (target neos d2i st x) as [m|]; simpl.
  - by case_decide.
  - case_decide; by subst.
Qed.

Lemma link_store_approaches st x m :
  approaches (neo_obj (link_store neos d2i st x) m) =
  approaches (neo_obj st m) ++
  (if decide (links_to neos d2i st m x) then [x] else []).
Proof.
  unfold link_store.
  destruct (decide (links_to neos d2i st m x)) as [[Hn Ht]|Hno].
  - rewrite Hn, Ht. simpl. by rewrite decide_True by done.
  - destruct (neo (ca_obj st x)) as [m'|] eqn:Hx; [by rewrite app_nil_r|].
    destruct (target neos d2i st x) as [m'|] eqn:Ht; [|by rewrite app_nil_r].
    simpl. rewrite decide_False; [by rewrite app_nil_r|].
    intros ->. by apply Hno.
Qed.
End link_store.

(** ** First occurrences *)

Lemma first_occurrences_elem_of l x : x ∈ first_occurrences l ↔ x ∈ l.
Proof.
  induction l as [|y l IH]; [done|]. simpl.
  rewrite !elem_of_cons, list_elem_of_filter, IH.
  destruct (decide (x = y)) as [->|Hne]; [by split; [left|left]|].
  split; [by intros [|[_ ?]]; [left|right]|by intros [|]; [left|right]].
Qed.

Lemma first_occurrences_NoDup l : NoDup (first_occurrences l).
Proof.
  induction l as [|y l IH]; simpl; [by apply NoDup_nil|].
  apply NoDup_cons. split.
  - rewrite list_elem_of_filter. by intros [? _].
  - by apply NoDup_filter.
Qed.

Lemma first_occurrences_sublist l : first_occurrences l `sublist_of` l.
Proof.
  induction l as [|y l IH]; simpl; [done|].
  apply sublist_skip. etrans; [apply sublist_filter|done].
Qed.

Lemma first_occurrences_id l : NoDup l → first_occurrences l = l.
Proof.
  induction 1 as [|y l Hy Hl IH]; simpl; [done|]. f_equal. rewrite IH.
  clear IH Hl. induction l as [|z l IH]; [done|].
  apply not_elem_of_cons in Hy as [Hne Hy].
  rewrite filter_cons_True by congruence. f_equal. by apply IH.
Qed.

(** ** The whole linking loop *)
Section link_loop.
Context (neos : list neo_ref) (d2i : gmap string nat).

Local Abbreviation run st l := (foldl (link_store neos d2i) st l).

Lemma link_loop_designation l st n :
  designation (neo_obj (run st l) n) = designation (neo_obj st n).
Proof.
  revert st. induction l as [|x l IH]; intros st; simpl; [done|].
  by rewrite IH, link_store_designation.
Qed.

Lemma link_loop_name l st n :
  name (neo_obj (run st l) n) = name (neo_obj st n).
Proof.
  revert st. induction l as [|x l IH]; intros st; simpl; [done|].
  by rewrite IH, link_store_name.
Qed.

Lemma link_loop__designation l st a :
  _designation (ca_obj (run st l) a) = _designation (ca_obj st a).
Proof.
  revert st. induction l as [|x l IH]; intros st; simpl; [done|].
  by rewrite IH, link_store__designation.
Qed.

(** A reference that is set stays; an unset one of an approach in the
    list becomes the NEO picked for it, if there is one. *)
Lemma link_loop_neo l st a :
  neo (ca_obj (run st l) a) =
  match neo (ca_obj st a) with
  | Some m => Some m
  | None => if decide (a ∈ l) then target neos d2i st a else None
  end.
Proof.
  revert st. induction l as [|x l IH]; intros st; cbn [foldl].
  { destruct (neo (ca_obj st a)); [done|].
    destruct (decide (a ∈ [])) as [H|]; [by apply not_elem_of_nil in H|done]. }
  rewrite IH, link_store_neo, link_store_target.
  destruct (decide (a = x)) as [->|Hne].
  - destruct (decide (x ∈ x :: l)) as [_|H];
      [|by exfalso; apply H; left].
    destruct (neo (ca_obj st x)); [done|].
    destruct (target neos d2i st x); [done|]. by case_decide.
  - destruct (neo (ca_obj st a)); [done|].
    apply decide_ext. rewrite elem_of_cons. split; [by right|by intros [|]].
Qed.

(** What each NEO's collection receives, in closed form. *)
Lemma link_loop_approaches l st m :
  approaches (neo_obj (run st l) m) =
  approaches (neo_obj st m) ++
  filter (links_to neos d2i st m) (first_occurrences l).
Proof.
  revert st. induction l as [|x l IH]; intros st; simpl.
  { by rewrite app_nil_r. }
  rewrite IH, link_store_approaches, <-app_assoc. f_equal.
  assert (∀ a, links_to neos d2i (link_store neos d2i st x) m a ↔
               links_to neos d2i st m a ∧
               ¬ (a = x ∧ is_Some (target neos d2i st x))) as Hiff.
  { intros a. unfold links_to.
    rewrite link_store_neo, !link_store_target.
    destruct (decide (a = x)) as [->|Hne]; [|naive_solver].
    destruct (neo (ca_obj st x)) as [m'|]; [naive_solver|].
    destruct (target neos d2i st x) as [m'|]; [|naive_solver].
    split; [by intros [? _]|]. intros [_ H]. exfalso. apply H. eauto. }
  rewrite (list_filter_iff _ _ _ Hiff).
  destruct (decide (links_to neos d2i st m x)) as [Hx|Hx].
  - rewrite filter_cons_True by done. simpl. f_equal.
    rewrite list_filter_filter. apply list_filter_iff.
    intros a. split.
    + intros [Ha Hno]. split; [done|]. intros ->. apply Hno.
      split; [done|]. destruct Hx as [_ ->]. eauto.
    + intros [Ha Hne]. split; [done|]. by intros [? _].
  - rewrite filter_cons_False by done. simpl.
    rewrite list_filter_filter. apply list_filter_iff.
    intros a. split.
    + intros [Ha Hno]. split; [done|]. by intros ->.
    + intros [Ha Hne]. split; [done|]. by intros [? _].
Qed.
End link_loop.

(** ** The generator under pure filters *)
Section pure_filters.
Context (st : store) (filters : list AttributeFilter)
        (preds : list (ca_ref → bool)).
Hypothesis Hpure : Forall2 (pure_at st) filters preds.

Local Abbreviation passing rest := (List.filter (all_hold preds) rest).

Lemma pure_length : length filters = length preds.
Proof. by eapply Forall2_length. Qed.

Lemma filter_loop_pure a :
  filter_loop filters a false st =
  Ok (match preds with [] => false | _ => all_hold preds a end, st).
Proof.
  generalize false. induction Hpure as [|f p fs ps Hf Hfs IH]; intros r; [done|].
  simpl. unfold bind. rewrite (Hf a). unfold all_hold; simpl.
  destruct (p a); [|done]. rewrite IH; [|done]. by destruct ps.
Qed.

(** One step of the loop on a non-empty list. *)
Lemma run_loop_cons a rest :
  run_loop filters (a :: rest) st =
  if all_hold preds a
  then Ok ((Some a, if decide (length filters = 0)
                    then AtFirstYield a rest else AtLoop rest), st)
  else run_loop filters rest st.
Proof.
  simpl. destruct (decide (length filters = 0)) as [Hlen|Hlen].
  - rewrite pure_length in Hlen. by destruct preds.
  - unfold check_and_yield, bind. rewrite filter_loop_pure.
    rewrite pure_length in Hlen. destruct preds as [|p ps]; [done|].
    by destruct (all_hold (p :: ps) a).
Qed.

(** Resuming after the first [yield] goes on with the next item. *)
Lemma next_AtFirstYield a rest :
  length filters = 0 →
  next filters (AtFirstYield a rest) st = next filters (AtLoop rest) st.
Proof.
  intros Hlen. simpl. unfold check_and_yield, bind. rewrite filter_loop_pure.
  rewrite pure_length in Hlen. by destruct preds.
Qed.

(** A step never changes the store. *)
Lemma run_loop_frame rest : ∃ r, run_loop filters rest st = Ok (r, st).
Proof.
  induction rest as [|a rest IH]; [by eexists|].
  rewrite run_loop_cons. destruct (all_hold preds a); [by eexists|done].
Qed.

Lemma next_frame g : ∃ r, next filters g st = Ok (r, st).
Proof.
  destruct g as [rest|a rest|]; simpl; [apply run_loop_frame| |by eexists].
  unfold check_and_yield, bind. rewrite filter_loop_pure.
  destruct (match preds with [] => false | _ => all_hold preds a end);
    [by eexists|apply run_loop_frame].
Qed.

Lemma consume_frame k g : ∃ r, consume k filters g st = Ok (r, st).
Proof.
  revert g. induction k as [|k IH]; intros g; [by eexists|].
  simpl. unfold bind. destruct (next_frame g) as [[o g'] ->]. simpl.
  destruct o as [a|]; [|by eexists].
  destruct (IH g') as [[l g''] ->]. by eexists.
Qed.

Lemma consume_S_AtFirstYield k a rest :
  length filters = 0 →
  consume (S k) filters (AtFirstYield a rest) st =
  consume (S k) filters (AtLoop rest) st.
Proof.
  intros Hlen. cbn [consume]. unfold bind. by rewrite next_AtFirstYield.
Qed.

(** The generator yields the passing approaches, in storage order. *)
Lemma consume_AtLoop k rest :
  ∃ g, consume k filters (AtLoop rest) st = Ok ((take k (passing rest), g), st)
       ∧ (length (passing rest) < k → g = Finished).
Proof.
  revert rest. induction k as [|k IHk]; intros rest.
  { exists (AtLoop rest). split; [by rewrite take_0|lia]. }
  induction rest as [|a rest IHrest].
  { exists Finished. done. }
  cbn [consume] in IHrest |- *. unfold bind in IHrest |- *.
  cbn [next] in IHrest |- *.
  rewrite run_loop_cons. cbn [List.filter].
  destruct (all_hold preds a) eqn:Ha; [|done].
  cbn [fst snd]. destruct (decide (length filters = 0)) as [Hlen|Hlen].
  - destruct k as [|k].
    + exists (AtFirstYield a rest). split; [done|]. simpl. lia.
    + rewrite consume_S_AtFirstYield by done.
      destruct (IHk rest) as (g & -> & Hfin). cbn [fst snd].
      exists g. split; [done|]. simpl. intros ?. apply Hfin. lia.
  - destruct (IHk rest) as (g & -> & Hfin). cbn [fst snd].
    exists g. split; [done|]. simpl. intros ?. apply Hfin. lia.
Qed.
End pure_filters.

(** ** The constructor as a whole *)

Lemma dict_of_ext {A V} (key key' : A → option string) (val : A → V) l :
  (∀ x, key x = key' x) → dict_of key val l = dict_of key' val l.
Proof.
  intros Hext. induction l as [|x l IH] using rev_ind; [done|].
  by rewrite !dict_of_snoc, IH, Hext.
Qed.

Lemma target_Some neos st a n :
  target neos (designation_to_index st neos) st a = Some n ↔
  ∃ i, is_last (designation_key st) (_designation (ca_obj st a)) neos i n.
Proof.
  unfold target. split.
  - destruct (designation_to_index st neos !! _) as [i|] eqn:Hd; [|done].
    intros Hn. apply designation_to_index_lookup in Hd as (n' & Hlast).
    exists i. destruct Hlast as (Hi & ?). by replace n with n' by congruence.
  - intros (i & Hlast).
    assert (designation_to_index st neos !! _designation (ca_obj st a) = Some i)
      as -> by (apply designation_to_index_lookup; eauto).
    by destruct Hlast.
Qed.

Lemma target_None neos st a :
  target neos (designation_to_index st neos) st a = None ↔
  ∀ n, n ∈ neos → designation (neo_obj st n) ≠ _designation (ca_obj st a).
Proof.
  rewrite <-designation_to_index_None. unfold target.
  destruct (designation_to_index st neos !! _) as [i|] eqn:Hd; [|done].
  destruct (designation_to_index_in_range _ _ _ _ Hd) as [n ->]. done.
Qed.

(** Some NEO of the list carries designation [d] iff one is the last to. *)
Lemma is_last_exists {A} (key : A → option string) (k : string) (l : list A) x :
  x ∈ l → key x = Some k → ∃ i y, is_last key k l i y.
Proof.
  intros Hx Hk.
  destruct (dict_of key id l !! k) as [y|] eqn:Hd.
  - apply dict_of_lookup in Hd as (i & y' & Hlast & _). eauto.
  - exfalso. rewrite dict_of_lookup_None in Hd. by apply (Hd x).
Qed.

Lemma is_last_unique {A} (key : A → option string) (k : string) (l : list A)
    i x y :
  is_last key k l i y → x ∈ l → key x = Some k →
  (∀ z, z ∈ l → key z = Some k → z = x) → y = x.
Proof.
  intros (Hi & Hk & _) _ _ Huniq. apply Huniq; [|done].
  apply list_elem_of_lookup. eauto.
Qed.

Lemma is_last_functional {A} (key : A → option string) (k : string)
    (l : list A) i j x y :
  is_last key k l i x → is_last key k l j y → i = j ∧ x = y.
Proof.
  intros (Hi & Hkx & Hmaxi) (Hj & Hky & Hmaxj).
  assert (i = j) as ->.
  { apply Nat.le_antisymm; [by eapply Hmaxj|by eapply Hmaxi]. }
  split; congruence.
Qed.

Lemma filter_none {A} (P : A → Prop) `{!∀ x, Decision (P x)} (l : list A) :
  (∀ x, x ∈ l → ¬ P x) → filter P l = [].
Proof.
  induction l as [|x l IH]; intros Hno; [done|].
  rewrite filter_cons_False by (apply Hno; left).
  apply IH. intros y Hy. apply Hno. by right.
Qed.

Lemma count_occ_once (l : list nat) (a : nat) :
  NoDup l → a ∈ l → count_occ Nat.eq_dec l a = 1.
Proof.
  intros Hnd Ha. apply NoDup_ListNoDup in Hnd.
  apply (proj1 (NoDup_count_occ' Nat.eq_dec l) Hnd). by apply list_elem_of_In.
Qed.

(** ** Linking *)

(** C1.  Given unlinked inputs, the constructor returns, and every input
    approach whose [_designation] is the designation of some input NEO [n]
    refers afterwards to an input NEO of that designation, in whose
    collection it occurs exactly once; that NEO is [n] itself whenever [n]
    is the only input NEO so designated.  Every NEO's collection lists its
    approaches in the order of the input sequence. *)
Theorem init_links_matching_approaches neos cas st :
  (∀ a, a ∈ cas → neo (ca_obj st a) = None) →
  (∀ n, n ∈ neos → approaches (neo_obj st n) = []) →
  ∃ db st', __init__ neos cas st = Ok (db, st') ∧
    (∀ a n, a ∈ cas → n ∈ neos →
       _designation (ca_obj st a) = designation (neo_obj st n) →
       ∃ n', n' ∈ neos ∧
         designation (neo_obj st' n') = _designation (ca_obj st' a) ∧
         neo (ca_obj st' a) = Some n' ∧
         count_occ Nat.eq_dec (approaches (neo_obj st' n')) a = 1 ∧
         ((∀ m, m ∈ neos →
             designation (neo_obj st m) = designation (neo_obj st n) → m = n) →
          n' = n)) ∧
    (∀ n, n ∈ neos → approaches (neo_obj st' n) `sublist_of` cas).
Proof.
  intros Hunset Hempty. rewrite init_run. eexists _, _. split; [done|].
  set (d2i := designation_to_index st neos). split.
  - intros a n Ha Hn Hd.
    destruct (is_last_exists (designation_key st) (_designation (ca_obj st a))
                neos n Hn) as (i & n' & Hlast).
    { unfold designation_key. by rewrite Hd. }
    assert (target neos d2i st a = Some n') as Ht by (apply target_Some; eauto).
    assert (n' ∈ neos) as Hn'.
    { apply list_elem_of_lookup. exists i. by destruct Hlast. }
    exists n'. split_and!; [done| | | |].
    + rewrite link_loop_designation, link_loop__designation.
      destruct Hlast as (_ & [= ->] & _). done.
    + rewrite link_loop_neo, (Hunset a Ha), decide_True by done. done.
    + rewrite link_loop_approaches, (Hempty n' Hn'). simpl.
      apply count_occ_once.
      * apply NoDup_filter, first_occurrences_NoDup.
      * apply list_elem_of_filter. split; [|by apply first_occurrences_elem_of].
        split; [by apply Hunset|done].
    + intros Huniq. eapply is_last_unique; [done|done| |].
      * unfold designation_key. by rewrite Hd.
      * intros m Hm [= Hmd]. apply Huniq; [done|]. congruence.
  - intros n Hn. rewrite link_loop_approaches, (Hempty n Hn). simpl.
    etrans; [apply sublist_filter|apply first_occurrences_sublist].
Qed.

Lemma init_links_matching_approaches_witness :
  ∃ db st', __init__ [0; 1] [0; 1; 2] eros_store = Ok (db, st') ∧
    (∀ a n, a ∈ [0; 1; 2] → n ∈ [0; 1] →
       _designation (ca_obj eros_store a) = designation (neo_obj eros_store n) →
       ∃ n', n' ∈ [0; 1] ∧
         designation (neo_obj st' n') = _designation (ca_obj st' a) ∧
         neo (ca_obj st' a) = Some n' ∧
         count_occ Nat.eq_dec (approaches (neo_obj st' n')) a = 1 ∧
         ((∀ m, m ∈ [0; 1] →
             designation (neo_obj eros_store m) =
             designation (neo_obj eros_store n) → m = n) →
          n' = n)) ∧
    (∀ n, n ∈ [0; 1] → approaches (neo_obj st' n) `sublist_of` [0; 1; 2]).
Proof.
  apply (init_links_matching_approaches [0; 1] [0; 1; 2] eros_store).
  - intros a Ha. repeat (apply elem_of_cons in Ha as [->|Ha]; [reflexivity|]).
    by apply not_elem_of_nil in Ha.
  - intros n Hn. repeat (apply elem_of_cons in Hn as [->|Hn]; [reflexivity|]).
    by apply not_elem_of_nil in Hn.
Defined.

(** C6.  The constructor returns for every input, and an input approach
    that is unlinked and whose [_designation] is no input NEO's designation
    is still unlinked afterwards. *)
Theorem init_leaves_unmatched_unset neos cas st a :
  a ∈ cas →
  neo (ca_obj st a) = None →
  (∀ n, n ∈ neos → designation (neo_obj st n) ≠ _designation (ca_obj st a)) →
  ∃ db st', __init__ neos cas st = Ok (db, st') ∧ neo (ca_obj st' a) = None.
Proof.
  intros Ha Hunset Hnone. rewrite init_run. eexists _, _. split; [done|].
  rewrite link_loop_neo, Hunset.
  apply target_None in Hnone. rewrite Hnone. by case_decide.
Qed.

Lemma init_leaves_unmatched_unset_witness :
  ∃ db st', __init__ [0; 1] [0; 1; 2] eros_store = Ok (db, st') ∧
            neo (ca_obj st' 2) = None.
Proof.
  apply (init_leaves_unmatched_unset [0; 1] [0; 1; 2] eros_store 2).
  - apply list_elem_of_lookup. by exists 2.
  - reflexivity.
  - intros n Hn. repeat (apply elem_of_cons in Hn as [->|Hn]; [by vm_compute|]).
    by apply not_elem_of_nil in Hn.
Defined.

(** C9.  An approach whose [neo] reference is already set is passed over:
    the constructor returns, the reference is what it was, and what any
    NEO's collection receives does not contain that approach. *)
Theorem init_skips_linked_approach neos cas st a m :
  neo (ca_obj st a) = Some m →
  ∃ db st', __init__ neos cas st = Ok (db, st') ∧
    neo (ca_obj st' a) = Some m ∧
    ∀ n, ∃ added,
      approaches (neo_obj st' n) = approaches (neo_obj st n) ++ added ∧
      a ∉ added.
Proof.
  intros Hset. rewrite init_run. eexists _, _. split; [done|]. split.
  - by rewrite link_loop_neo, Hset.
  - intros n. eexists. split; [apply link_loop_approaches|].
    rewrite list_elem_of_filter. intros [[Hunset _] _]. congruence.
Qed.

Lemma init_skips_linked_approach_witness :
  ∃ db st', __init__ [0; 1] [0; 1] linked_store = Ok (db, st') ∧
    neo (ca_obj st' 0) = Some 1 ∧
    ∀ n, ∃ added,
      approaches (neo_obj st' n) = approaches (neo_obj linked_store n) ++ added ∧
      0 ∉ added.
Proof.
  apply (init_skips_linked_approach [0; 1] [0; 1] linked_store 0 1).
  reflexivity.
Defined.

(** C10.  When several input NEOs have one designation, the table from
    designation to position holds the position of the last of them; every
    unlinked input approach of that designation is linked to that last NEO
    and appended to its collection, and the collections of the other NEOs
    of that designation receive nothing. *)
Theorem init_duplicate_designation_last_wins neos cas st i n :
  is_last (designation_key st) (designation (neo_obj st n)) neos i n →
  ∃ db st', __init__ neos cas st = Ok (db, st') ∧
    _designation_to_index db !! designation (neo_obj st n) = Some i ∧
    (∀ a, a ∈ cas → neo (ca_obj st a) = None →
          _designation (ca_obj st a) = designation (neo_obj st n) →
          neo (ca_obj st' a) = Some n ∧ a ∈ approaches (neo_obj st' n)) ∧
    (∀ m, m ≠ n → designation (neo_obj st m) = designation (neo_obj st n) →
          approaches (neo_obj st' m) = approaches (neo_obj st m)).
Proof.
  intros Hlast. rewrite init_run. eexists _, _. split; [done|]. simpl.
  set (d2i := designation_to_index st neos). split_and!.
  - apply designation_to_index_lookup. eauto.
  - intros a Ha Hunset Hd.
    assert (target neos d2i st a = Some n) as Ht.
    { apply target_Some. exists i. by rewrite Hd. }
    split.
    + rewrite link_loop_neo, Hunset, decide_True by done. done.
    + rewrite link_loop_approaches. apply elem_of_app. right.
      apply list_elem_of_filter. split; [done|].
      by apply first_occurrences_elem_of.
  - intros m Hne Hd. rewrite link_loop_approaches.
    rewrite filter_none; [by rewrite app_nil_r|].
    intros a _ [_ Ht].
    apply target_Some in Ht as (j & Hm).
    assert (_designation (ca_obj st a) = designation (neo_obj st n)) as Ha.
    { destruct Hm as (_ & [= <-] & _). done. }
    rewrite Ha in Hm. apply Hne.
    by destruct (is_last_functional _ _ _ _ _ _ _ Hm Hlast).
Qed.

Lemma init_duplicate_designation_last_wins_witness :
  ∃ db st', __init__ [0; 1] [0; 1] twin_store = Ok (db, st') ∧
    _designation_to_index db !! designation (neo_obj twin_store 1) = Some 1 ∧
    (∀ a, a ∈ [0; 1] → neo (ca_obj twin_store a) = None →
          _designation (ca_obj twin_store a) = designation (neo_obj twin_store 1) →
          neo (ca_obj st' a) = Some 1 ∧ a ∈ approaches (neo_obj st' 1)) ∧
    (∀ m, m ≠ 1 →
          designation (neo_obj twin_store m) = designation (neo_obj twin_store 1) →
          approaches (neo_obj st' m) = approaches (neo_obj twin_store m)).
Proof.
  apply (init_duplicate_designation_last_wins [0; 1] [0; 1] twin_store 1 1).
  split_and!; [reflexivity|reflexivity|].
  intros j y Hj _. apply lookup_lt_Some in Hj. simpl in Hj. lia.
Defined.

(** ** The lookup tables *)

Lemma designation_to_neo_link neos d2i cas st l :
  designation_to_neo (foldl (link_store neos d2i) st cas) l =
  dict_of (lower_designation_key st) id l.
Proof.
  apply dict_of_ext. intros n. unfold lower_designation_key.
  by rewrite link_loop_designation.
Qed.

Lemma name_to_neo_link neos d2i cas st l :
  name_to_neo (foldl (link_store neos d2i) st cas) l =
  dict_of (lower_name_key st) id l.
Proof.
  apply dict_of_ext. intros n. unfold lower_name_key.
  by rewrite link_loop_name.
Qed.

Lemma lower_empty s : lower s = "" → s = "".
Proof. by destruct s. Qed.

(** C7.  The constructor returns, and for a key shared by several NEOs
    after lowercasing each lookup table holds the NEO that comes last in
    the input; a lookup of that key returns this NEO. *)
Theorem init_index_collision_last_wins neos cas st :
  ∃ db st', __init__ neos cas st = Ok (db, st') ∧
    (∀ k i n, is_last (lower_designation_key st) k neos i n →
       _designation_to_neo db !! k = Some n ∧
       ∀ s, lower (strip s) = k →
            get_neo_by_designation db (Some s) = Ok (Some n)) ∧
    (∀ k i n, is_last (lower_name_key st) k neos i n →
       _name_to_neo db !! k = Some n ∧
       ∀ s, lower (strip s) = k →
            get_neo_by_name db (Some s) = Ok (Some n)).
Proof.
  rewrite init_run. eexists _, _. split; [done|].
  unfold get_neo_by_designation, get_neo_by_name. simpl.
  rewrite designation_to_neo_link, name_to_neo_link. split.
  - intros k i n Hlast.
    assert (dict_of (lower_designation_key st) id neos !! k = Some n) as Hk
      by (apply dict_of_lookup; eauto).
    split; [done|]. by intros s ->; rewrite Hk.
  - intros k i n Hlast.
    assert (dict_of (lower_name_key st) id neos !! k = Some n) as Hk
      by (apply dict_of_lookup; eauto).
    split; [done|]. by intros s ->; rewrite Hk.
Qed.

Lemma init_index_collision_last_wins_witness :
  ∃ db st', __init__ [0; 1; 2] [] twin_store = Ok (db, st') ∧
    get_neo_by_designation db (Some " 2000 Fj10 ") = Ok (Some 2) ∧
    get_neo_by_name db (Some "ErOs") = Ok (Some 2).
Proof.
  destruct (init_index_collision_last_wins [0; 1; 2] [] twin_store)
    as (db & st' & Hrun & Hdes & Hname).
  exists db, st'. split; [exact Hrun|]. split.
  - apply (Hdes "2000 fj10" 2 2); [|reflexivity].
    split_and!; [reflexivity|reflexivity|].
    intros j y Hj _. apply lookup_lt_Some in Hj. simpl in Hj. lia.
  - apply (Hname "eros" 2 2); [|reflexivity].
    split_and!; [reflexivity|reflexivity|].
    intros j y Hj _. apply lookup_lt_Some in Hj. simpl in Hj. lia.
Defined.

(** C4, as amended.  The lookups ignore letter case and surrounding white
    space of the argument: for a NEO whose designation (name) has no
    leading or trailing white space and whose lowercased designation (name)
    no other input NEO shares, every argument that equals it up to letter
    case and surrounding white space finds that NEO. *)
Theorem lookup_ignores_case_and_blanks neos cas st :
  ∃ db st', __init__ neos cas st = Ok (db, st') ∧
    (∀ n s, n ∈ neos →
       strip (designation (neo_obj st n)) = designation (neo_obj st n) →
       lower (strip s) = lower (strip (designation (neo_obj st n))) →
       (∀ m, m ∈ neos →
          lower (designation (neo_obj st m)) =
          lower (designation (neo_obj st n)) → m = n) →
       get_neo_by_designation db (Some s) = Ok (Some n)) ∧
    (∀ n nm s, n ∈ neos → name (neo_obj st n) = Some nm →
       strip nm = nm →
       lower (strip s) = lower (strip nm) →
       (∀ m nm', m ∈ neos → name (neo_obj st m) = Some nm' →
          lower nm' = lower nm → m = n) →
       get_neo_by_name db (Some s) = Ok (Some n)).
Proof.
  rewrite init_run. eexists _, _. split; [done|].
  unfold get_neo_by_designation, get_neo_by_name. simpl.
  rewrite designation_to_neo_link, name_to_neo_link. split.
  - intros n s Hn Htrim Hs Huniq. rewrite Hs, Htrim.
    destruct (is_last_exists (lower_designation_key st)
                (lower (designation (neo_obj st n))) neos n Hn eq_refl)
      as (i & n' & Hlast).
    assert (n' = n) as ->.
    { eapply is_last_unique; [done|done|done|].
      intros m Hm [= Hk]. by apply Huniq. }
    assert (dict_of (lower_designation_key st) id neos
              !! lower (designation (neo_obj st n)) = Some n) as ->
      by (apply dict_of_lookup; eauto).
    done.
  - intros n nm s Hn Hnm Htrim Hs Huniq. rewrite Hs, Htrim.
    assert (lower_name_key st n = Some (lower nm)) as Hkey
      by (unfold lower_name_key; by rewrite Hnm).
    destruct (is_last_exists (lower_name_key st) (lower nm) neos n Hn Hkey)
      as (i & n' & Hlast).
    assert (n' = n) as ->.
    { eapply is_last_unique; [done|done|done|].
      intros m Hm Hk. unfold lower_name_key in Hk.
      destruct (name (neo_obj st m)) as [nm'|] eqn:Hm'; [|done].
      injection Hk as Hk. by eapply Huniq. }
    assert (dict_of (lower_name_key st) id neos !! lower nm = Some n) as ->
      by (apply dict_of_lookup; eauto).
    done.
Qed.

Lemma lookup_ignores_case_and_blanks_witness :
  ∃ db st', __init__ [0; 1] [0; 1; 2] eros_store = Ok (db, st') ∧
    get_neo_by_designation db (Some "2000 FJ10") = Ok (Some 1) ∧
    get_neo_by_designation db (Some "2000 fj10 ") = Ok (Some 1) ∧
    get_neo_by_designation db (Some " 2000 FJ10") = Ok (Some 1) ∧
    get_neo_by_name db (Some " eROS ") = Ok (Some 0).
Proof.
  destruct (lookup_ignores_case_and_blanks [0; 1] [0; 1; 2] eros_store)
    as (db & st' & Hrun & Hdes & Hname).
  assert (∀ m, m ∈ [0; 1] →
            lower (designation (neo_obj eros_store m)) =
            lower (designation (neo_obj eros_store 1)) → m = 1) as Huniq.
  { intros m Hm.
    repeat (apply elem_of_cons in Hm as [->|Hm]; [by vm_compute|]).
    by apply not_elem_of_nil in Hm. }
  assert (1 ∈ [0; 1]) as H1 by (apply list_elem_of_lookup; by exists 1).
  exists db, st'. split; [exact Hrun|]. split_and!.
  - apply Hdes; [exact H1|reflexivity|reflexivity|exact Huniq].
  - apply Hdes; [exact H1|reflexivity|reflexivity|exact Huniq].
  - apply Hdes; [exact H1|reflexivity|reflexivity|exact Huniq].
  - apply (Hname 0 "Eros");
      [apply list_elem_of_lookup; by exists 0|reflexivity..|].
    intros m nm' Hm.
    repeat (apply elem_of_cons in Hm as [->|Hm]; [by vm_compute|]).
    by apply not_elem_of_nil in Hm.
Defined.

(** C4, counterexample.  The tables are keyed by the lowercased field as it
    stands, while the argument is stripped: a NEO whose designation (name)
    starts with a blank is not found, not even under its own designation
    (name), although no other NEO is in the database. *)
Lemma lookup_misses_untrimmed_field :
  ∃ db st', __init__ [0] [] untrimmed_store = Ok (db, st') ∧
    designation (neo_obj st' 0) = " 433" ∧
    get_neo_by_designation db (Some " 433") = Ok None ∧
    name (neo_obj st' 0) = Some " Eros" ∧
    get_neo_by_name db (Some " Eros") = Ok None.
Proof.
  eexists _, _. split; [apply init_run|]. by vm_compute.
Qed.

(** C5, counterexample.  With [None] for the name the lookup raises (it
    calls [strip] on its argument), and a NEO whose name is the empty
    string is entered in the name table and found under the empty string. *)
Lemma name_lookup_null_raises_blank_name_found :
  ∃ db st', __init__ [0] [] blank_name_store = Ok (db, st') ∧
    get_neo_by_name db None = Raise AttributeError ∧
    name (neo_obj st' 0) = Some "" ∧
    _name_to_neo db !! "" = Some 0 ∧
    get_neo_by_name db (Some "") = Ok (Some 0).
Proof.
  eexists _, _. split; [apply init_run|]. by vm_compute.
Qed.

(** C5, as amended.  When no input NEO has the empty string as its name,
    the name lookup of the empty string (of any string of white space)
    returns absent; the lookup of a string never raises; and every entry of
    the name table is an input NEO that has a name, under that name
    lowercased, so that NEOs without a name contribute no entry. *)
Theorem name_lookup_blank_misses neos cas st :
  (∀ n, n ∈ neos → name (neo_obj st n) ≠ Some "") →
  ∃ db st', __init__ neos cas st = Ok (db, st') ∧
    (∀ s, strip s = "" → get_neo_by_name db (Some s) = Ok None) ∧
    (∀ s, ∃ r, get_neo_by_name db (Some s) = Ok r) ∧
    (∀ k n, _name_to_neo db !! k = Some n →
       ∃ nm, n ∈ neos ∧ name (neo_obj st' n) = Some nm ∧ lower nm = k).
Proof.
  intros Hnames. rewrite init_run. eexists _, _. split; [done|].
  unfold get_neo_by_name. simpl. rewrite name_to_neo_link. split_and!.
  - intros s ->. simpl. f_equal. apply dict_of_lookup_None.
    intros n Hn Hk. unfold lower_name_key in Hk.
    destruct (name (neo_obj st n)) as [nm|] eqn:Hnm; [|done].
    injection Hk as Hk. apply lower_empty in Hk as ->. by apply (Hnames n).
  - intros s. by eexists.
  - intros k n Hk. apply dict_of_lookup in Hk as (i & n' & Hlast & <-).
    destruct Hlast as (Hi & Hkey & _). unfold lower_name_key in Hkey.
    rewrite link_loop_name. unfold id.
    destruct (name (neo_obj st n')) as [nm|]; [|done].
    exists nm. split_and!; [|done|by injection Hkey].
    apply list_elem_of_lookup. eauto.
Qed.

Lemma name_lookup_blank_misses_witness :
  ∃ db st', __init__ [0; 1] [0; 1; 2] eros_store = Ok (db, st') ∧
    (∀ s, strip s = "" → get_neo_by_name db (Some s) = Ok None) ∧
    (∀ s, ∃ r, get_neo_by_name db (Some s) = Ok r) ∧
    (∀ k n, _name_to_neo db !! k = Some n →
       ∃ nm, n ∈ [0; 1] ∧ name (neo_obj st' n) = Some nm ∧ lower nm = k).
Proof.
  apply (name_lookup_blank_misses [0; 1] [0; 1; 2] eros_store).
  intros n Hn. repeat (apply elem_of_cons in Hn as [->|Hn]; [by vm_compute|]).
  by apply not_elem_of_nil in Hn.
Defined.

(** ** The query generator *)

Lemma all_hold_Forall preds a :
  all_hold preds a = true ↔ Forall (λ p, p a = true) preds.
Proof.
  unfold all_hold. rewrite forallb_forall, Forall_forall.
  by setoid_rewrite list_elem_of_In.
Qed.

(** C2.  With a non-empty set of filters that only compute booleans, the
    first [k] values of the generator are the first [k] approaches, in
    storage order, on which all the predicates hold; once these are
    exhausted the generator is finished.  An approach is yielded as often
    as it is stored if all predicates hold of it and never otherwise, so
    nothing is yielded when no approach passes. *)
Theorem query_yields_conjunction db filters preds st k :
  filters ≠ [] →
  Forall2 (pure_at st) filters preds →
  let out := List.filter (all_hold preds) (_approaches db) in
  (∃ g, consume k filters (query db filters) st = Ok ((take k out, g), st) ∧
        (length out < k → g = Finished)) ∧
  (∀ a, count_occ Nat.eq_dec out a =
        if decide (Forall (λ p, p a = true) preds)
        then count_occ Nat.eq_dec (_approaches db) a else 0) ∧
  ((∀ a, a ∈ _approaches db → ¬ Forall (λ p, p a = true) preds) → out = []).
Proof.
  intros _ Hpure out. split_and!.
  - by apply consume_AtLoop.
  - intros a. subst out. induction (_approaches db) as [|b l IH].
    { by case_decide. }
    cbn [List.filter]. destruct (all_hold preds b) eqn:Hb.
    + cbn [count_occ]. destruct (Nat.eq_dec b a) as [->|Hne]; [|done].
      apply all_hold_Forall in Hb. rewrite IH. by repeat case_decide.
    + rewrite IH. cbn [count_occ].
      destruct (Nat.eq_dec b a) as [->|Hne]; [|done].
      case_decide as Ha; [|done].
      apply all_hold_Forall in Ha. congruence.
  - intros Hnone. subst out. induction (_approaches db) as [|b l IH]; [done|].
    cbn [List.filter]. destruct (all_hold preds b) eqn:Hb.
    + exfalso. apply (Hnone b); [left|]. by apply all_hold_Forall.
    + apply IH. intros a Ha. apply Hnone. by right.
Qed.

Lemma query_yields_conjunction_witness :
  let db := mkDB [] [0; 1; 2; 3; 4; 5; 6] ∅ ∅ ∅ in
  consume 3 [even_filter; small_filter] (query db [even_filter; small_filter])
    eros_store = Ok (([0; 2], Finished), eros_store).
Proof.
  intros db.
  destruct (query_yields_conjunction db [even_filter; small_filter]
              [Nat.even; λ a, a <? 4] eros_store 3) as [(g & Hrun & Hfin) _].
  - discriminate.
  - repeat constructor.
  - rewrite (Hfin ltac:(simpl; lia)) in Hrun. exact Hrun.
Defined.

(** C3.  With no filter, the first [k] values of the generator are the
    first [k] stored approaches; consuming it to the end gives every stored
    approach once, in storage order, and leaves the generator finished. *)
Theorem query_without_filters_yields_all db st :
  consume (S (length (_approaches db))) [] (query db []) st =
    Ok ((_approaches db, Finished), st) ∧
  ∀ k, ∃ g, consume k [] (query db []) st = Ok ((take k (_approaches db), g), st).
Proof.
  assert (Forall2 (pure_at st) [] []) as Hpure by constructor.
  assert (List.filter (all_hold []) (_approaches db) = _approaches db) as Hall.
  { induction (_approaches db) as [|a l IH]; [done|]. simpl. by rewrite IH. }
  split.
  - destruct (consume_AtLoop st [] [] Hpure (S (length (_approaches db)))
                (_approaches db)) as (g & Hrun & Hfin).
    rewrite Hall in Hrun, Hfin. rewrite (Hfin ltac:(lia)) in Hrun.
    by rewrite take_ge in Hrun by lia.
  - intros k. destruct (consume_AtLoop st [] [] Hpure k (_approaches db))
      as (g & Hrun & _).
    rewrite Hall in Hrun. eauto.
Qed.

(** C8.  Whatever number of values is drawn from the generator, with
    filters that only compute booleans the store is afterwards the store
    it was: no attribute of a NEO or of an approach has changed.  (The
    generator reads the database record and has no assignment to it.) *)
Theorem query_leaves_store_unchanged db filters preds st k :
  Forall2 (pure_at st) filters preds →
  ∃ out g, consume k filters (query db filters) st = Ok ((out, g), st).
Proof.
  intros Hpure.
  destruct (consume_frame st filters preds Hpure k (query db filters))
    as [[out g] ->].
  eauto.
Qed.

Lemma query_leaves_store_unchanged_witness :
  ∃ out g,
    consume 2 [even_filter] (query (mkDB [] [0; 1; 2; 3; 4] ∅ ∅ ∅) [even_filter])
      eros_store = Ok ((out, g), eros_store).
Proof.
  apply (query_leaves_store_unchanged _ [even_filter] [Nat.even]).
  repeat constructor.
Defined.

(** * Further properties of the constructor *)

Lemma is_last_ext {A} (key key' : A → option string) k (l : list A) i x :
  (∀ y, key y = key' y) → is_last key k l i x ↔ is_last key' k l i x.
Proof.
  intros Hext. unfold is_last. rewrite Hext.
  by setoid_rewrite Hext.
Qed.

Lemma target_elem_of neos d2i st a m :
  target neos d2i st a = Some m → m ∈ neos.
Proof.
  unfold target. destruct (d2i !! _) as [i|]; [|done].
  intros Hm. apply list_elem_of_lookup. eauto.
Qed.

Lemma link_store_ca_other neos d2i st x a :
  a ≠ x → ca_obj (link_store neos d2i st x) a = ca_obj st a.
Proof.
  intros Hne. unfold link_store. destruct (neo (ca_obj st x)); [done|].
  destruct (target neos d2i st x); [|done]. simpl. by rewrite decide_False.
Qed.

Lemma link_store_neo_other neos d2i st x n :
  n ∉ neos → neo_obj (link_store neos d2i st x) n = neo_obj st n.
Proof.
  intros Hn. unfold link_store. destruct (neo (ca_obj st x)); [done|].
  destruct (target neos d2i st x) as [m|] eqn:Ht; [|done]. simpl.
  rewrite decide_False; [done|]. intros ->. by apply target_elem_of in Ht.
Qed.

Lemma link_loop_ca_other neos d2i l st a :
  a ∉ l → ca_obj (foldl (link_store neos d2i) st l) a = ca_obj st a.
Proof.
  revert st. induction l as [|x l IH]; intros st Ha; simpl; [done|].
  apply not_elem_of_cons in Ha as [Hne Ha].
  by rewrite IH, link_store_ca_other.
Qed.

Lemma link_loop_neo_other neos d2i l st n :
  n ∉ neos → neo_obj (foldl (link_store neos d2i) st l) n = neo_obj st n.
Proof.
  revert st. induction l as [|x l IH]; intros st Hn; simpl; [done|].
  by rewrite IH, link_store_neo_other.
Qed.

Lemma link_loop_target neos d2i l st a :
  target neos d2i (foldl (link_store neos d2i) st l) a = target neos d2i st a.
Proof. unfold target. by rewrite link_loop__designation. Qed.

(** Once the loop has run over [l], a further round on an element of [l]
    finds nothing to do. *)
Lemma link_store_after_loop neos d2i l st a :
  a ∈ l →
  link_store neos d2i (foldl (link_store neos d2i) st l) a =
  foldl (link_store neos d2i) st l.
Proof.
  intros Ha. unfold link_store at 1.
  rewrite link_loop_neo, link_loop_target, decide_True by done.
  destruct (neo (ca_obj st a)); [done|].
  by destruct (target neos d2i st a) eqn:Ht.
Qed.

Lemma filter_ext_elem_of {A} (P Q : A → Prop) `{!∀ x, Decision (P x)}
    `{!∀ x, Decision (Q x)} (l : list A) :
  (∀ x, x ∈ l → (P x ↔ Q x)) → filter P l = filter Q l.
Proof.
  induction l as [|x l IH]; intros Hext; [done|].
  rewrite !filter_cons.
  rewrite IH by (intros y Hy; apply Hext; by right).
  apply decide_ext, Hext. by left.
Qed.

(** X1.  The constructor returns for every input; the database holds the
    two input lists, and each entry of the table from designation to
    position is a valid position of [_neos], at which a NEO of that
    designation stands (so line 59 cannot raise). *)
Theorem init_index_positions_valid neos cas st :
  ∃ db st', __init__ neos cas st = Ok (db, st') ∧
    _neos db = neos ∧ _approaches db = cas ∧
    ∀ d i, _designation_to_index db !! d = Some i →
      i < length (_neos db) ∧
      ∃ n, _neos db !! i = Some n ∧ designation (neo_obj st' n) = d.
Proof.
  rewrite init_run. eexists _, _. split; [done|]. simpl.
  split_and!; [done..|]. intros d i Hd.
  apply designation_to_index_lookup in Hd as (n & Hi & [= Hk] & _).
  split; [by eapply lookup_lt_Some|].
  exists n. split; [done|]. by rewrite link_loop_designation.
Qed.

(** X2.  A designation lookup misses exactly when no input NEO has the
    stripped, lowercased argument as its lowercased designation, and it
    returns [n] exactly when [n] is the last input NEO that has. *)
Theorem get_neo_by_designation_spec neos cas st :
  ∃ db st', __init__ neos cas st = Ok (db, st') ∧
    ∀ s,
      (get_neo_by_designation db (Some s) = Ok None ↔
       ∀ n, n ∈ neos →
            lower (designation (neo_obj st' n)) ≠ lower (strip s)) ∧
      (∀ n, get_neo_by_designation db (Some s) = Ok (Some n) ↔
            ∃ i, is_last (lower_designation_key st') (lower (strip s)) neos i n).
Proof.
  rewrite init_run. eexists _, _. split; [done|].
  intros s. unfold get_neo_by_designation. simpl. split.
  - unfold designation_to_neo. split.
    + intros [= Hk]. rewrite dict_of_lookup_None in Hk.
      intros n Hn Heq. apply (Hk n Hn). by rewrite Heq.
    + intros Hno. f_equal. apply dict_of_lookup_None.
      intros n Hn [= Heq]. by apply (Hno n Hn).
  - intros n. unfold designation_to_neo. split.
    + intros [= Hk]. apply dict_of_lookup in Hk as (i & n' & Hlast & <-).
      by exists i.
    + intros [i Hlast]. f_equal. apply dict_of_lookup. by exists i, n.
Qed.

(** X3.  A name lookup misses exactly when no input NEO has a name whose
    lowercase is the stripped, lowercased argument, and it returns [n]
    exactly when [n] is the last input NEO that has one. *)
Theorem get_neo_by_name_spec neos cas st :
  ∃ db st', __init__ neos cas st = Ok (db, st') ∧
    ∀ s,
      (get_neo_by_name db (Some s) = Ok None ↔
       ∀ n nm, n ∈ neos → name (neo_obj st' n) = Some nm →
               lower nm ≠ lower (strip s)) ∧
      (∀ n, get_neo_by_name db (Some s) = Ok (Some n) ↔
            ∃ i, is_last (lower_name_key st') (lower (strip s)) neos i n).
Proof.
  rewrite init_run. eexists _, _. split; [done|].
  intros s. unfold get_neo_by_name. simpl. split.
  - unfold name_to_neo. split.
    + intros [= Hk]. rewrite dict_of_lookup_None in Hk.
      intros n nm Hn Hnm Heq. apply (Hk n Hn). by rewrite Hnm, <-Heq.
    + intros Hno. f_equal. apply dict_of_lookup_None.
      intros n Hn Heq. destruct (name (neo_obj _ n)) as [nm|] eqn:Hnm; [|done].
      injection Heq as Heq. by apply (Hno n nm Hn Hnm).
  - intros n. unfold name_to_neo. split.
    + intros [= Hk]. apply dict_of_lookup in Hk as (i & n' & Hlast & <-).
      by exists i.
    + intros [i Hlast]. f_equal. apply dict_of_lookup. by exists i, n.
Qed.

(** X4.  The constructor writes nothing but the [neo] reference of input
    approaches and the collections of input NEOs: no designation or name
    changes, an approach outside the input list is the object it was, and
    so is a NEO outside the input list. *)
Theorem init_writes_only_links neos cas st :
  ∃ db st', __init__ neos cas st = Ok (db, st') ∧
    (∀ n, designation (neo_obj st' n) = designation (neo_obj st n) ∧
          name (neo_obj st' n) = name (neo_obj st n)) ∧
    (∀ a, _designation (ca_obj st' a) = _designation (ca_obj st a)) ∧
    (∀ a, a ∉ cas → ca_obj st' a = ca_obj st a) ∧
    (∀ n, n ∉ neos → neo_obj st' n = neo_obj st n).
Proof.
  rewrite init_run. eexists _, _. split; [done|]. split_and!.
  - intros n. by rewrite link_loop_designation, link_loop_name.
  - intros a. apply link_loop__designation.
  - intros a. apply link_loop_ca_other.
  - intros n. apply link_loop_neo_other.
Qed.

(** X5.  A reference set by the constructor is well founded: an approach
    that was unlinked and is linked afterwards is an input approach, and
    its NEO is an input NEO whose designation is the approach's
    [_designation]. *)
Theorem init_link_integrity neos cas st :
  ∃ db st', __init__ neos cas st = Ok (db, st') ∧
    ∀ a n, neo (ca_obj st a) = None → neo (ca_obj st' a) = Some n →
      a ∈ cas ∧ n ∈ neos ∧
      designation (neo_obj st' n) = _designation (ca_obj st' a).
Proof.
  rewrite init_run. eexists _, _. split; [done|].
  intros a n Hunset. rewrite link_loop_neo, Hunset.
  destruct (decide (a ∈ cas)) as [Ha|]; [|done]. intros Ht.
  split_and!; [done|by eapply target_elem_of|].
  rewrite link_loop_designation, link_loop__designation.
  apply target_Some in Ht as (i & _ & [= Hk] & _). done.
Qed.

(** X6.  On unlinked input the two directions of the link agree: an
    approach is in the collection of an input NEO exactly when it is an
    input approach whose [neo] reference is that NEO. *)
Theorem init_links_agree neos cas st a n :
  (∀ a, a ∈ cas → neo (ca_obj st a) = None) →
  (∀ n, n ∈ neos → approaches (neo_obj st n) = []) →
  n ∈ neos →
  ∃ db st', __init__ neos cas st = Ok (db, st') ∧
    (a ∈ approaches (neo_obj st' n) ↔ a ∈ cas ∧ neo (ca_obj st' a) = Some n).
Proof.
  intros Hunset Hempty Hn. rewrite init_run. eexists _, _. split; [done|].
  rewrite link_loop_approaches, (Hempty n Hn), link_loop_neo. simpl.
  rewrite list_elem_of_filter, first_occurrences_elem_of. unfold links_to.
  split.
  - intros [[Ha Ht] Hin]. split; [done|].
    by rewrite Ha, decide_True by done.
  - intros [Hin Ht]. rewrite (Hunset a Hin), decide_True in Ht by done.
    split; [|done]. split; [by apply Hunset|done].
Qed.

Lemma init_links_agree_witness :
  ∃ db st', __init__ [0; 1] [0; 1; 2] eros_store = Ok (db, st') ∧
    (1 ∈ approaches (neo_obj st' 0) ↔
     1 ∈ [0; 1; 2] ∧ neo (ca_obj st' 1) = Some 0).
Proof.
  apply (init_links_agree [0; 1] [0; 1; 2] eros_store 1 0).
  - intros a Ha. repeat (apply elem_of_cons in Ha as [->|Ha]; [reflexivity|]).
    by apply not_elem_of_nil in Ha.
  - intros n Hn. repeat (apply elem_of_cons in Hn as [->|Hn]; [reflexivity|]).
    by apply not_elem_of_nil in Hn.
  - apply list_elem_of_lookup. by exists 0.
Defined.

(** X7.  On unlinked input without repeated approaches, the collection of
    an input NEO that alone has its designation is the input approaches of
    that designation, in input order. *)
Theorem init_collection_exact neos cas st n :
  NoDup cas →
  (∀ a, a ∈ cas → neo (ca_obj st a) = None) →
  (∀ n, n ∈ neos → approaches (neo_obj st n) = []) →
  n ∈ neos →
  (∀ m, m ∈ neos →
        designation (neo_obj st m) = designation (neo_obj st n) → m = n) →
  ∃ db st', __init__ neos cas st = Ok (db, st') ∧
    approaches (neo_obj st' n) =
    filter (λ a, _designation (ca_obj st a) = designation (neo_obj st n)) cas.
Proof.
  intros Hnd Hunset Hempty Hn Huniq.
  rewrite init_run. eexists _, _. split; [done|].
  rewrite link_loop_approaches, (Hempty n Hn), first_occurrences_id by done.
  simpl. apply filter_ext_elem_of. intros a Ha. unfold links_to. split.
  - intros [_ Ht]. apply target_Some in Ht as (i & _ & [= Hk] & _). done.
  - intros Hd. split; [by apply Hunset|]. apply target_Some.
    destruct (is_last_exists (designation_key st) (_designation (ca_obj st a))
                neos n Hn) as (i & n' & Hlast).
    { unfold designation_key. by rewrite Hd. }
    exists i. replace n with n'; [done|].
    eapply is_last_unique; [done|done| |].
    + unfold designation_key. by rewrite Hd.
    + intros m Hm [= Hmd]. apply Huniq; [done|]. congruence.
Qed.

Lemma init_collection_exact_witness :
  ∃ db st', __init__ [0; 1] [0; 1; 2] eros_store = Ok (db, st') ∧
    approaches (neo_obj st' 0) =
    filter (λ a, _designation (ca_obj eros_store a) =
                 designation (neo_obj eros_store 0)) [0; 1; 2].
Proof.
  apply (init_collection_exact [0; 1] [0; 1; 2] eros_store 0).
  - apply (bool_decide_unpack _). by vm_compute.
  - intros a Ha. repeat (apply elem_of_cons in Ha as [->|Ha]; [reflexivity|]).
    by apply not_elem_of_nil in Ha.
  - intros n Hn. repeat (apply elem_of_cons in Hn as [->|Hn]; [reflexivity|]).
    by apply not_elem_of_nil in Hn.
  - apply list_elem_of_lookup. by exists 0.
  - intros m Hm. repeat (apply elem_of_cons in Hm as [->|Hm]; [by vm_compute|]).
    by apply not_elem_of_nil in Hm.
Defined.

(** X8.  Building a database a second time from the same lists changes no
    object and gives the same database: the guard of line 56 passes over
    every approach the first run linked, and the others still match no
    NEO. *)
Theorem init_twice_changes_nothing neos cas st :
  ∃ db st', __init__ neos cas st = Ok (db, st') ∧
            __init__ neos cas st' = Ok (db, st').
Proof.
  rewrite init_run. eexists _, _. split; [done|]. rewrite init_run.
  set (d2i := designation_to_index st neos).
  set (st' := foldl (link_store neos d2i) st cas).
  assert (designation_to_index st' neos = d2i) as ->.
  { apply dict_of_ext. intros [i n]. simpl. unfold st'.
    by rewrite link_loop_designation. }
  assert (∀ l, l ⊆ cas → foldl (link_store neos d2i) st' l = st') as Hfix.
  { induction l as [|a l IH]; intros Hsub; [done|]. simpl.
    unfold st' at 1. rewrite link_store_after_loop by (apply Hsub; left).
    apply IH. intros x Hx. apply Hsub. by right. }
  by rewrite Hfix.
Qed.

(** * Further properties of the query generator *)

Lemma pure_at_true st fs ps a :
  Forall2 (pure_at st) fs ps →
  all_hold ps a = true ↔ Forall (λ f : AttributeFilter, f a st = Ok (true, st)) fs.
Proof.
  induction 1 as [|f p fs ps Hf Hfs IH]; [by split|].
  unfold all_hold in *. simpl. rewrite andb_true_iff, IH, Forall_cons.
  rewrite (Hf a). split; intros [Hp ?]; (split; [|done]); congruence.
Qed.

(** X9.  The order in which the filters are tried does not matter: two
    orders of the same pure filters give the same values. *)
Theorem query_filter_order_irrelevant db fs fs' ps ps' st k :
  Forall2 (pure_at st) fs ps →
  Forall2 (pure_at st) fs' ps' →
  fs ≡ₚ fs' →
  ∃ out g g',
    consume k fs (query db fs) st = Ok ((out, g), st) ∧
    consume k fs' (query db fs') st = Ok ((out, g'), st).
Proof.
  intros Hfs Hfs' Hperm.
  destruct (consume_AtLoop st fs ps Hfs k (_approaches db)) as (g & Hg & _).
  destruct (consume_AtLoop st fs' ps' Hfs' k (_approaches db)) as (g' & Hg' & _).
  exists (take k (List.filter (all_hold ps) (_approaches db))), g, g'.
  split; [done|]. unfold query. rewrite Hg'. do 4 f_equal.
  apply List.filter_ext. intros a.
  apply eq_true_iff_eq. rewrite !pure_at_true by done. by rewrite Hperm.
Qed.

Lemma query_filter_order_irrelevant_witness :
  ∃ out g g',
    consume 5 [even_filter; small_filter]
      (query (mkDB [] [0; 1; 2; 3; 4] ∅ ∅ ∅) [even_filter; small_filter])
      eros_store = Ok ((out, g), eros_store) ∧
    consume 5 [small_filter; even_filter]
      (query (mkDB [] [0; 1; 2; 3; 4] ∅ ∅ ∅) [small_filter; even_filter])
      eros_store = Ok ((out, g'), eros_store).
Proof.
  apply (query_filter_order_irrelevant _ _ _
           [Nat.even; λ a, a <? 4] [λ a, a <? 4; Nat.even]).
  - repeat constructor.
  - repeat constructor.
  - apply perm_swap.
Defined.

Lemma filter_loop_prefix pre fs a r st :
  Forall (λ f : AttributeFilter, f a st = Ok (true, st)) pre →
  filter_loop (pre ++ fs) a r st =
  filter_loop fs a (match pre with [] => r | _ => true end) st.
Proof.
  intros Hpre. revert r. induction Hpre as [|f pre Hf Hpre IH]; intros r; [done|].
  simpl. unfold bind. rewrite Hf, IH. by destruct pre.
Qed.

(** X10.  The filters are tried in turn and the first that fails settles
    the matter: the approach is passed over and the filters after the
    failing one are not called, whatever they would do. *)
Theorem query_short_circuits pre f post a rest st :
  Forall (λ g : AttributeFilter, g a st = Ok (true, st)) pre →
  f a st = Ok (false, st) →
  next (pre ++ f :: post) (AtLoop (a :: rest)) st =
  next (pre ++ f :: post) (AtLoop rest) st.
Proof.
  intros Hpre Hf. simpl. rewrite decide_False.
  - unfold check_and_yield, bind. rewrite filter_loop_prefix by done.
    simpl. unfold bind. by rewrite Hf.
  - rewrite length_app. simpl. lia.
Qed.

Lemma query_short_circuits_witness :
  next ([even_filter] ++ small_filter :: [raising_filter])
    (AtLoop [4; 5; 6]) eros_store =
  next ([even_filter] ++ small_filter :: [raising_filter])
    (AtLoop [5; 6]) eros_store.
Proof.
  apply (query_short_circuits [even_filter] small_filter [raising_filter]).
  - by repeat constructor.
  - reflexivity.
Defined.

(** X11.  An exception of a filter is not caught: when the filters before
    it hold of the approach at hand and it raises, so does [next]. *)
Theorem query_propagates_exception pre f post a rest st e :
  Forall (λ g : AttributeFilter, g a st = Ok (true, st)) pre →
  f a st = Raise e →
  next (pre ++ f :: post) (AtLoop (a :: rest)) st = Raise e.
Proof.
  intros Hpre Hf. simpl. rewrite decide_False.
  - unfold check_and_yield, bind. rewrite filter_loop_prefix by done.
    simpl. unfold bind. by rewrite Hf.
  - rewrite length_app. simpl. lia.
Qed.

Lemma query_propagates_exception_witness :
  next ([even_filter] ++ raising_filter :: [small_filter])
    (AtLoop [4; 5; 6]) eros_store = Raise AttributeError.
Proof.
  apply (query_propagates_exception [even_filter] raising_filter [small_filter]).
  - by repeat constructor.
  - reflexivity.
Defined.

Lemma run_loop_sublist fs rest st o g st' :
  run_loop fs rest st = Ok ((o, g), st') →
  reachable fs g ∧
  match o with
  | Some a => a :: remaining g `sublist_of` rest
  | None => g = Finished
  end.
Proof.
  revert st. induction rest as [|b rest IH]; intros st; simpl.
  { by intros [= <- <- _]. }
  destruct (decide (length fs = 0)) as [Hlen|Hlen].
  { by intros [= <- <- _]. }
  unfold check_and_yield, bind.
  destruct (filter_loop fs b false st) as [[[] st1]|e]; [| |done].
  - by intros [= <- <- _].
  - intros Hrun. destruct (IH _ Hrun) as [Hg Ho]. split; [done|].
    destruct o; [by apply sublist_cons|done].
Qed.

Lemma next_sublist fs g st o g' st' :
  reachable fs g →
  next fs g st = Ok ((o, g'), st') →
  reachable fs g' ∧
  match o with
  | Some a => a :: remaining g' `sublist_of` remaining g
  | None => True
  end.
Proof.
  destruct g as [rest|b rest|]; simpl.
  - intros _ Hrun. destruct (run_loop_sublist _ _ _ _ _ _ Hrun) as [? Ho].
    split; [done|]. by destruct o.
  - intros Hlen Hrun. destruct fs; [|done].
    destruct (run_loop_sublist _ _ _ _ _ _ Hrun) as [? Ho].
    split; [done|]. by destruct o.
  - by intros _ [= <- <- _].
Qed.

Lemma consume_sublist fs k g0 st out g st' :
  reachable fs g0 →
  consume k fs g0 st = Ok ((out, g), st') →
  out `sublist_of` remaining g0 ∧ length out ≤ k.
Proof.
  revert g0 st out. induction k as [|k IH]; intros g0 st out Hreach;
    cbn [consume].
  { intros [= <- _ _]. split; [apply sublist_nil_l|done]. }
  unfold bind.
  destruct (next fs g0 st) as [[[o g1] st1]|e] eqn:Hnext; [|done].
  destruct (next_sublist _ _ _ _ _ _ Hreach Hnext) as [Hreach1 Ho].
  cbn [fst snd]. destruct o as [a|].
  - destruct (consume k fs g1 st1) as [[[l g2] st2]|e] eqn:Hrest; [|done].
    cbn [fst snd]. intros [= <- <- <-].
    destruct (IH _ _ _ Hreach1 Hrest) as [Hsub Hlen].
    split; [|simpl; lia].
    etrans; [|exact Ho]. by apply sublist_skip.
  - intros [= <- _ _]. split; [apply sublist_nil_l|simpl; lia].
Qed.

(** X12.  Whatever the filters do (they may write to objects or raise),
    the values drawn from the generator are stored approaches in storage
    order, none yielded more often than it is stored, and there are at
    most as many as [next] was called. *)
Theorem query_yields_stored_in_order db fs st k out g st' :
  consume k fs (query db fs) st = Ok ((out, g), st') →
  out `sublist_of` _approaches db ∧ length out ≤ k.
Proof. by apply consume_sublist. Qed.

Lemma query_yields_stored_in_order_witness :
  [0; 1] `sublist_of` [0; 1; 2] ∧ length [0; 1] ≤ 2.
Proof.
  apply (query_yields_stored_in_order (mkDB [] [0; 1; 2] ∅ ∅ ∅)
           [unlinking_filter] linked_store 2 [0; 1] (AtLoop [2])
           (mkStore (neo_obj linked_store)
              (λ r, if decide (r = 1)
                    then mkCA "433" None
                    else if decide (r = 0) then mkCA "433" None
                    else ca_obj linked_store r))).
  reflexivity.
Defined.

(** * The writers *)

Lemma dict_to_list_header {V} :
  dict_to_list (V := V) header_dict = inr (Text <$> fieldnames).
Proof. unfold dict_to_list. rewrite decide_True; [done|]. by vm_compute. Qed.

Lemma dict_or_lookup {A} (d1 d2 : gmap string A) k :
  dict_or d1 d2 !! k =
  match d2 !! k with Some v => Some v | None => d1 !! k end.
Proof.
  unfold dict_or. rewrite lookup_union.
  by destruct (d2 !! k), (d1 !! k).
Qed.

Section writers_proofs.
Context {V : Type}.
Variable serialize_approach : store → ca_ref → gmap string V.
Variable serialize_neo : store → neo_ref → gmap string V.

Local Abbreviation can_write := (writable serialize_approach serialize_neo).
Local Abbreviation row_of := (csv_row serialize_approach serialize_neo).

Lemma csv_row_written st r :
  can_write st r →
  ∃ d, csv_rowdict serialize_approach serialize_neo st r = inr d ∧ dict_to_list d = inr (row_of st r).
Proof.
  intros (n & Hn & Hkeys). unfold csv_rowdict, csv_row. rewrite Hn.
  eexists. split; [done|]. unfold dict_to_list. rewrite decide_True.
  - f_equal. apply list_fmap_ext. intros _ k _.
    rewrite lookup_fmap, dict_or_lookup. unfold csv_cell.
    by destruct (serialize_neo st n !! k), (serialize_approach st r !! k).
  - intros k Hk. apply elem_of_list_to_set, Hkeys.
    apply elem_of_dom in Hk. rewrite lookup_fmap, dict_or_lookup in Hk.
    destruct (serialize_neo st n !! k); [by right; eauto|].
    destruct (serialize_approach st r !! k); [by left; eauto|].
    by destruct Hk.
Qed.

Lemma write_rows_app st pre l file :
  Forall (can_write st) pre →
  write_rows serialize_approach serialize_neo st (pre ++ l) file =
  write_rows serialize_approach serialize_neo st l
    (file ++ (row_of st <$> pre)).
Proof.
  intros Hpre. revert file. induction Hpre as [|r pre Hr Hpre IH]; intros file.
  { simpl. by rewrite app_nil_r. }
  simpl. destruct (csv_row_written st r Hr) as (d & -> & ->).
  rewrite IH, <-app_assoc. done.
Qed.

(** X13.  When every result is linked and the serializations use field
    names only, the file receives the row of field names and then one row
    for each result, in order, with a cell for each field name: the NEO's
    value if its serialization has the key, else the approach's, else the
    empty string. *)
Theorem write_to_csv_rows st results :
  Forall (can_write st) results →
  write_to_csv serialize_approach serialize_neo st results =
  ((Text <$> fieldnames) :: (row_of st <$> results), None).
Proof.
  intros Hres. unfold write_to_csv. rewrite dict_to_list_header.
  rewrite <-(app_nil_r results) at 1. by rewrite write_rows_app.
Qed.

(** X14.  At the first result whose [neo] is unset the writer raises
    [AttributeError]; the file then holds what writing the results before
    it gives, and nothing of the results after it. *)
Theorem write_to_csv_stops_at_unlinked st pre r post :
  Forall (can_write st) pre →
  neo (ca_obj st r) = None →
  write_to_csv serialize_approach serialize_neo st (pre ++ r :: post) =
  ((write_to_csv serialize_approach serialize_neo st pre).1, Some WAttributeError).
Proof.
  intros Hpre Hr. rewrite (write_to_csv_rows st pre Hpre).
  unfold write_to_csv. rewrite dict_to_list_header.
  rewrite write_rows_app by done. simpl.
  unfold csv_rowdict. by rewrite Hr.
Qed.

(** X15.  At the first result whose serialization, or whose NEO's, has a
    key that is no field name the writer raises [ValueError]; the file then
    holds what writing the results before it gives. *)
Theorem write_to_csv_stops_at_extra_key st pre r n k post :
  Forall (can_write st) pre →
  neo (ca_obj st r) = Some n →
  is_Some (serialize_approach st r !! k) ∨ is_Some (serialize_neo st n !! k) →
  k ∉ fieldnames →
  write_to_csv serialize_approach serialize_neo st (pre ++ r :: post) =
  ((write_to_csv serialize_approach serialize_neo st pre).1, Some WValueError).
Proof.
  intros Hpre Hn Hk Hnot. rewrite (write_to_csv_rows st pre Hpre).
  unfold write_to_csv. rewrite dict_to_list_header.
  rewrite write_rows_app by done. simpl.
  unfold csv_rowdict. rewrite Hn.
  unfold dict_to_list. rewrite decide_False; [done|].
  intros Hsub. apply Hnot. apply (elem_of_list_to_set (C := gset string)).
  apply Hsub, elem_of_dom. rewrite lookup_fmap, dict_or_lookup.
  destruct Hk as [[v Hv]|[v Hv]]; rewrite Hv.
  - by destruct (serialize_neo st n !! k).
  - done.
Qed.

Lemma json_record_linked st r n :
  neo (ca_obj st r) = Some n →
  ∃ rec, json_record serialize_approach serialize_neo st r = inr rec ∧
    rec !! "neo" = Some (JDict (serialize_neo st n)) ∧
    ∀ k, k ≠ "neo" → rec !! k = JVal <$> serialize_approach st r !! k.
Proof.
  intros Hn. unfold json_record, nest_neo_object. rewrite Hn.
  eexists. split; [done|]. split.
  - rewrite dict_or_lookup, map_fmap_singleton. by rewrite lookup_singleton_eq.
  - intros k Hk. rewrite dict_or_lookup, map_fmap_singleton.
    rewrite lookup_singleton_ne by done. by rewrite lookup_fmap.
Qed.

(** X16.  When every result is linked, [json.dump] is given one record for
    each result, in order; under the key [neo] the record has the
    serialization of the result's NEO, nested, even if the result's own
    serialization has that key, and under every other key what the
    result's serialization has. *)
Theorem write_to_json_records st results :
  Forall (λ r, is_Some (neo (ca_obj st r))) results →
  ∃ records,
    write_to_json serialize_approach serialize_neo st results = inr records ∧
    Forall2 (λ r rec, ∃ n, neo (ca_obj st r) = Some n ∧
               rec !! "neo" = Some (JDict (serialize_neo st n)) ∧
               ∀ k, k ≠ "neo" →
                    rec !! k = JVal <$> serialize_approach st r !! k)
      results records.
Proof.
  induction 1 as [|r results [n Hn] Hres (records & Hrun & Hall)].
  { exists []. by split. }
  destruct (json_record_linked st r n Hn) as (rec & Hrec & Hneo & Hother).
  exists (rec :: records). simpl. rewrite Hrec, Hrun. split; [done|].
  constructor; [|done]. by exists n.
Qed.

(** X17.  [write_to_json] raises exactly when some result has [neo] unset,
    and then it is [AttributeError] and nothing is given to [json.dump]. *)
Theorem write_to_json_raises_iff st results e :
  write_to_json serialize_approach serialize_neo st results = inl e ↔
  e = WAttributeError ∧ ∃ r, r ∈ results ∧ neo (ca_obj st r) = None.
Proof.
  induction results as [|r results IH]; simpl.
  { split; [done|]. intros (_ & r & Hr & _). by apply not_elem_of_nil in Hr. }
  unfold json_record, nest_neo_object.
  destruct (neo (ca_obj st r)) as [n|] eqn:Hn.
  - destruct (write_to_json _ _ st results) as [e'|records].
    + split.
      * intros [= ->]. destruct (proj1 IH eq_refl) as (-> & r' & Hr' & Hnone).
        split; [done|]. exists r'. split; [by right|done].
      * intros (-> & r' & Hr' & Hnone). f_equal. symmetry.
        apply elem_of_cons in Hr' as [->|Hr']; [congruence|].
        assert (inl e' = inl WAttributeError :> write_exn + list (gmap string (jval V)))
          as [= ->]; [|done].
        apply IH. eauto.
    + split; [done|]. intros (-> & r' & Hr' & Hnone).
      apply elem_of_cons in Hr' as [->|Hr']; [congruence|].
      assert (inr records = inl WAttributeError
                :> write_exn + list (gmap string (jval V))) as Heq; [|done].
      apply IH. eauto.
  - split.
    + intros [= <-]. split; [done|]. exists r. split; [by left|done].
    + by intros (-> & _).
Qed.

(** X18.  The constructor, the query and the JSON writer together: for
    unlinked input, writing all that the query without filters yields
    raises [AttributeError] exactly when some input approach has a
    [_designation] that is no input NEO's designation. *)
Theorem dangling_designation_fails_json neos cas st :
  (∀ a, a ∈ cas → neo (ca_obj st a) = None) →
  ∃ db st',
    __init__ neos cas st = Ok (db, st') ∧
    consume (S (length cas)) [] (query db []) st' = Ok ((cas, Finished), st') ∧
    (write_to_json serialize_approach serialize_neo st' cas = inl WAttributeError ↔
     ∃ a, a ∈ cas ∧
          ∀ n, n ∈ neos →
               designation (neo_obj st n) ≠ _designation (ca_obj st a)).
Proof.
  intros Hunset. rewrite init_run. eexists _, _. split; [done|].
  set (d2i := designation_to_index st neos).
  set (st' := foldl (link_store neos d2i) st cas). split.
  - destruct (consume_AtLoop st' [] [] ltac:(constructor) (S (length cas)) cas)
      as (g & Hrun & Hfin).
    assert (List.filter (all_hold []) cas = cas) as Hall.
    { clear. induction cas as [|a l IH]; [done|]. simpl. by rewrite IH. }
    rewrite Hall in Hrun, Hfin. rewrite (Hfin ltac:(lia)) in Hrun.
    by rewrite take_ge in Hrun by lia.
  - rewrite write_to_json_raises_iff.
    assert (∀ a, a ∈ cas →
              (neo (ca_obj st' a) = None ↔
               ∀ n, n ∈ neos →
                    designation (neo_obj st n) ≠ _designation (ca_obj st a)))
      as Hiff.
    { intros a Ha. unfold st'.
      rewrite link_loop_neo, (Hunset a Ha), decide_True by done.
      apply target_None. }
    split.
    + intros (_ & a & Ha & Hnone). exists a. split; [done|]. by apply Hiff.
    + intros (a & Ha & Hno). split; [done|]. exists a. split; [done|].
      by apply Hiff.
Qed.
End writers_proofs.

Lemma example_writable :
  Forall (writable example_serialize_approach example_serialize_neo
            eros_linked_store) [0; 1].
Proof.
  apply Forall_cons. split; [|apply Forall_cons; split; [|done]].
  all: unfold writable; exists 0; split; [reflexivity|].
  all: intros k [Hk|Hk]; apply elem_of_dom in Hk; revert k Hk.
  all: apply (bool_decide_unpack _); by vm_compute.
Qed.

Lemma write_to_csv_rows_witness :
  write_to_csv example_serialize_approach example_serialize_neo
    eros_linked_store [0; 1] =
  ([Text "datetime_utc"; Text "distance_au"; Text "velocity_km_s";
    Text "designation"; Text "name"; Text "diameter_km";
    Text "potentially_hazardous"]
   :: [[Text ""; Text ""; Text ""; Val "433"; Val "Eros"; Text ""; Text ""];
       [Text ""; Text ""; Text ""; Val "433"; Val "Eros"; Text ""; Text ""]],
   None).
Proof.
  apply (write_to_csv_rows example_serialize_approach example_serialize_neo
           eros_linked_store [0; 1]).
  exact example_writable.
Defined.

Lemma write_to_csv_stops_at_unlinked_witness :
  write_to_csv example_serialize_approach example_serialize_neo
    eros_linked_store ([0; 1] ++ 2 :: [0]) =
  ((write_to_csv example_serialize_approach example_serialize_neo
      eros_linked_store [0; 1]).1, Some WAttributeError).
Proof.
  apply (write_to_csv_stops_at_unlinked example_serialize_approach
           example_serialize_neo eros_linked_store [0; 1] 2 [0]).
  - exact example_writable.
  - reflexivity.
Defined.

Lemma write_to_csv_stops_at_extra_key_witness :
  write_to_csv example_serialize_approach odd_serialize_neo
    eros_linked_store ([] ++ 0 :: [1]) =
  ((write_to_csv example_serialize_approach odd_serialize_neo
      eros_linked_store []).1, Some WValueError).
Proof.
  apply (write_to_csv_stops_at_extra_key example_serialize_approach
           odd_serialize_neo eros_linked_store [] 0 0 "fullname" [1]).
  - constructor.
  - reflexivity.
  - right. by exists "433".
  - intros Hin. repeat (apply elem_of_cons in Hin as [Hin|Hin]; [done|]).
    by apply not_elem_of_nil in Hin.
Defined.

Lemma write_to_json_records_witness :
  ∃ records,
    write_to_json example_serialize_approach example_serialize_neo
      eros_linked_store [0; 1] = inr records ∧
    Forall2 (λ r rec, ∃ n, neo (ca_obj eros_linked_store r) = Some n ∧
               rec !! "neo" =
                 Some (JDict (example_serialize_neo eros_linked_store n)) ∧
               ∀ k, k ≠ "neo" →
                    rec !! k =
                    JVal <$> example_serialize_approach eros_linked_store r !! k)
      [0; 1] records.
Proof.
  apply (write_to_json_records example_serialize_approach example_serialize_neo
           eros_linked_store [0; 1]).
  repeat constructor; by eexists.
Defined.

Lemma dangling_designation_fails_json_witness :
  ∃ db st',
    __init__ [0; 1] [0; 1; 2] eros_store = Ok (db, st') ∧
    consume 4 [] (query db []) st' = Ok (([0; 1; 2], Finished), st') ∧
    (write_to_json example_serialize_approach example_serialize_neo st'
       [0; 1; 2] = inl WAttributeError ↔
     ∃ a, a ∈ [0; 1; 2] ∧
          ∀ n, n ∈ [0; 1] →
               designation (neo_obj eros_store n) ≠
               _designation (ca_obj eros_store a)).
Proof.
  apply (dangling_designation_fails_json example_serialize_approach
           example_serialize_neo [0; 1] [0; 1; 2] eros_store).
  intros a Ha. repeat (apply elem_of_cons in Ha as [->|Ha]; [reflexivity|]).
  by apply not_elem_of_nil in Ha.
Defined.

(** X19.  A NEO whose designation has no white space at its ends, and
    whose lowercased designation no other input NEO has, is found under
    any argument made of white space, a string that is the designation up
    to letter case, and white space. *)
Theorem get_neo_by_designation_padded neos cas st n w1 t w2 :
  n ∈ neos →
  strip (designation (neo_obj st n)) = designation (neo_obj st n) →
  (∀ m, m ∈ neos →
        lower (designation (neo_obj st m)) =
        lower (designation (neo_obj st n)) → m = n) →
  all_space w1 = true → all_space w2 = true →
  lower t = lower (designation (neo_obj st n)) →
  ∃ db st', __init__ neos cas st = Ok (db, st') ∧
    get_neo_by_designation db (Some (w1 ++ t ++ w2)%string) = Ok (Some n).
Proof.
  intros Hn Htrim Huniq Hw1 Hw2 Ht.
  rewrite init_run. eexists _, _. split; [done|].
  unfold get_neo_by_designation. simpl. rewrite designation_to_neo_link.
  rewrite (blanks_and_case_normalise w1 t w2 _ Hw1 Hw2 Ht Htrim), Htrim.
  destruct (is_last_exists (lower_designation_key st)
              (lower (designation (neo_obj st n))) neos n Hn eq_refl)
    as (i & n' & Hlast).
  assert (n' = n) as ->.
  { eapply is_last_unique; [done|done|done|].
    intros m Hm [= Hk]. by apply Huniq. }
  f_equal. apply dict_of_lookup. by exists i, n.
Qed.

Lemma get_neo_by_designation_padded_witness :
  ∃ db st', __init__ [0; 1] [0; 1; 2] eros_store = Ok (db, st') ∧
    get_neo_by_designation db (Some ("  " ++ "2000 fj10" ++ " ")%string)
    = Ok (Some 1).
Proof.
  apply (get_neo_by_designation_padded [0; 1] [0; 1; 2] eros_store 1
           "  " "2000 fj10" " ").
  - apply list_elem_of_lookup. by exists 1.
  - reflexivity.
  - intros m Hm. repeat (apply elem_of_cons in Hm as [->|Hm]; [by vm_compute|]).
    by apply not_elem_of_nil in Hm.
  - reflexivity.
  - reflexivity.
  - reflexivity.
Defined.
